(** * StorageManager: a shallow embedding of [src/storage.ts]

    The TypeScript class [StorageManager<V>] wraps a JavaScript [Map] with
    an expiry sweep, a capacity policy and a random key generator.  This file
    embeds the class in Rocq and states its properties.

    - JavaScript numbers that hold millisecond instants, durations and counts
      are integers ([Z]); a [Date] is its time value or the invalid date.
    - A [Map] is an insertion-ordered association list with unique keys.
    - Methods are computations over the instance and the two ambient sources
      the class reads: [Date.now()] and [crypto.randomBytes]. *)

From Stdlib Require Import ZArith List String Ascii Bool Lia.
From Stdlib Require Strings.Byte.
Import ListNotations.

Set Implicit Arguments.

Local Open Scope string_scope.
Local Open Scope Z_scope.

(** ** Dates *)

Module JsDate.

(** A [Date] object holds a time value: an integral number of milliseconds
    since the epoch, or NaN (the invalid date). *)
Inductive Date : Type :=
| TimeValue (t : Z)
| InvalidDate.

Definition msPerDay : Z := 86400000.

(** The largest magnitude a time value may have (100,000,000 days). *)
Definition maxTimeValue : Z := 8640000000000000.

(** ECMAScript [TimeClip]: out-of-range instants become NaN. *)
Definition TimeClip (t : Z) : Date :=
  if Z.abs t <=? maxTimeValue then TimeValue t else InvalidDate.

(** [new Date(ms)] for an integral number of milliseconds. *)
Definition new_Date (ms : Z) : Date := TimeClip ms.

(** Relational comparison of two dates compares their time values as
    numbers; every comparison that involves NaN is false. *)
Definition lt (a b : Date) : bool :=
  match a, b with
  | TimeValue x, TimeValue y => x <? y
  | _, _ => false
  end.

Definition gt (a b : Date) : bool := lt b a.

(** ECMAScript day arithmetic, used to evaluate a calendar date. *)
Definition DayFromYear (y : Z) : Z :=
  365 * (y - 1970) + (y - 1969) / 4 - (y - 1901) / 100 + (y - 1601) / 400.

Definition InLeapYear (y : Z) : bool :=
  ((y mod 4 =? 0) && negb (y mod 100 =? 0)) || (y mod 400 =? 0).

(** Days before the first of month [m] (0 = January) in a year. *)
Definition DayWithinYear (leap : bool) (m : Z) : Z :=
  let l := if leap then 1 else 0 in
  match m with
  | 0 => 0
  | 1 => 31
  | 2 => 59 + l
  | 3 => 90 + l
  | 4 => 120 + l
  | 5 => 151 + l
  | 6 => 181 + l
  | 7 => 212 + l
  | 8 => 243 + l
  | 9 => 273 + l
  | 10 => 304 + l
  | _ => 334 + l
  end.

Definition MakeDay (year month date : Z) : Z :=
  DayFromYear year + DayWithinYear (InLeapYear year) month + date - 1.

Definition MakeDate (day time : Z) : Z := day * msPerDay + time.

(** [new Date(y-m-d)] for a calendar date read as midnight of that day,
    shifted by the zone offset [tza] under which the text is read. *)
Definition new_Date_ymd (tza : Z) (year month date : Z) : Date :=
  TimeClip (MakeDate (MakeDay year (month - 1) date) 0 - tza).

End JsDate.

Import JsDate.

(** ** Values *)

(** The payload type [V] of the class is unconstrained; the methods inspect
    payloads only through [typeof], [Array.isArray] and object spread, and
    keys through [typeof] and, for the message of the TypeError, conversion
    to a string.  [VUnprintable error] is an object without own enumerable
    properties whose conversion to a string throws [error] (an instance of a
    class whose [toString] throws). *)
#[local] Unset Elimination Schemes.
Inductive JsVal : Type :=
| VUndefined
| VNull
| VBool (b : bool)
| VNumber (n : Z)
| VString (s : string)
| VDate (d : Date)
| VArray (items : list JsVal)
| VObject (props : list (string * JsVal))
| VSymbol (description : string)
| VUnprintable (error : string).
#[local] Set Elimination Schemes.

(** ** Insertion-ordered maps with string keys

    Both [Map<string, _>] and the own properties of a plain object keep their
    entries in insertion order; writing to an existing key keeps its place. *)

Module JsMap.
Section Ops.

Variable V : Type.

Definition t : Type := list (string * V).

Definition empty : t := [].

Definition size (m : t) : nat := List.length m.

Definition keys (m : t) : list string := List.map fst m.

Fixpoint get (k : string) (m : t) : option V :=
  match m with
  | [] => None
  | (k', v) :: rest => if String.eqb k k' then Some v else get k rest
  end.

Definition has (k : string) (m : t) : bool :=
  match get k m with Some _ => true | None => false end.

Fixpoint set (k : string) (v : V) (m : t) : t :=
  match m with
  | [] => [(k, v)]
  | (k', v') :: rest =>
      if String.eqb k k' then (k', v) :: rest else (k', v') :: set k v rest
  end.

Fixpoint remove (k : string) (m : t) : t :=
  match m with
  | [] => []
  | (k', v') :: rest =>
      if String.eqb k k' then rest else (k', v') :: remove k rest
  end.

(** Object spread and [Object.assign]: write every entry of [src], in
    order, onto [dst]. *)
Definition assign (dst src : t) : t :=
  List.fold_left (fun acc kv => set (fst kv) (snd kv) acc) src dst.

(** Keys are unique. *)
Definition wf (m : t) : Prop := NoDup (keys m).

End Ops.
End JsMap.

Arguments JsMap.empty {V}.

(** ** Configuration and instance *)

(** [maxItems ?? Infinity]: a bound, or no bound. *)
Inductive Limit : Type :=
| Finite (m : Z)
| Infinity.

(** [size >= limit] for a map size. *)
Definition reaches (size : nat) (limit : Limit) : bool :=
  match limit with
  | Finite m => m <=? Z.of_nat size
  | Infinity => false
  end.

(** [IConfig]: every option may be left out. *)
Record IConfig : Type := {
  cfg_maxItems : option Z;
  cfg_expireMs : option Z;
  cfg_keyLength : option Z;
  cfg_cleanupIntervalMs : option Z
}.

(** [TStorageValue<V>]: the stored object.  Whatever the payload, it has the
    two [Date] properties [expireAt] and [updateAt]; [props] are its other own
    properties (the payload's own properties when the payload is a plain
    object, the single property [value] otherwise). *)
Record TStorageValue : Type := {
  props : JsMap.t JsVal;
  expireAt : Date;
  updateAt : Date
}.

(** [TStorageResult<V>]: a plain object carrying at least [success]. *)
Definition TStorageResult : Type := JsMap.t JsVal.

(** The private fields.  [_cleanupInterval] records whether the interval
    timer set up by the constructor is still armed. *)
Record StorageManager : Type := {
  _storage : JsMap.t TStorageValue;
  _maxItems : Limit;
  _expireMs : Z;
  _keyLength : Z;
  _cleanupInterval : bool;
  _cleanupIntervalMs : Z
}.

(** A state of the program: the instance, how many readings of [Date.now()]
    and how many random bytes have been taken so far, and what was written to
    the console. *)
Record State : Type := {
  this : StorageManager;
  nowReads : nat;
  bytesRead : nat;
  console : list string
}.

(** A number that is a multiple of one half, given by its double:
    [{| doubled := n |}] is [n / 2]. *)
Record Halves : Type := { doubled : Z }.

(** What a call can throw: the TypeError raised while a key is validated,
    the RangeError of [crypto.randomBytes] with the size it received, the
    error of the runtime for a string longer than it can build, and an error
    raised by the caller's own code (the [toString] of a key). *)
Inductive Exn : Type :=
| TypeError (key : JsVal)
| RangeError (size : Halves)
| ErrStringTooLong (length : Z)
| Raised (error : string).

Inductive Completion (A : Type) : Type :=
| Normal (a : A)
| Throw (e : Exn).

Arguments Throw {A} e.

(** A method body: it ends normally or throws, and leaves a state. *)
Definition M (A : Type) : Type := State -> Completion A * State.

Definition ret {A} (a : A) : M A := fun w => (Normal a, w).

Definition throw {A} (e : Exn) : M A := fun w => (Throw e, w).

Definition bind {A B} (c : M A) (k : A -> M B) : M B :=
  fun w =>
    match c w with
    | (Normal a, w') => k a w'
    | (Throw e, w') => (Throw e, w')
    end.

Declare Scope js_scope.
Delimit Scope js_scope with js.
Notation "x <- c ;; k" := (bind c (fun x => k))
  (at level 61, c at next level, right associativity) : js_scope.
Notation "c ;; k" := (bind c (fun _ => k))
  (at level 61, right associativity) : js_scope.

Definition when (b : bool) (c : M unit) : M unit :=
  if b then c else ret tt.

Definition with_storage (m : JsMap.t TStorageValue) (o : StorageManager)
  : StorageManager :=
  {| _storage := m;
     _maxItems := _maxItems o;
     _expireMs := _expireMs o;
     _keyLength := _keyLength o;
     _cleanupInterval := _cleanupInterval o;
     _cleanupIntervalMs := _cleanupIntervalMs o |}.

Definition with_this (o : StorageManager) (w : State) : State :=
  {| this := o;
     nowReads := nowReads w;
     bytesRead := bytesRead w;
     console := console w |}.

(** Reading a field of [this]. *)
Definition field {A} (f : StorageManager -> A) : M A :=
  fun w => (Normal (f (this w)), w).

(** Replacing the contents of [this._storage]. *)
Definition store (m : JsMap.t TStorageValue) : M unit :=
  fun w => (Normal tt, with_this (with_storage m (this w)) w).

(** ** Hexadecimal text of bytes: [Buffer.prototype.toString('hex')] *)

Definition hexDigit (n : N) : ascii :=
  match n with
  | 0%N => "0" | 1%N => "1" | 2%N => "2" | 3%N => "3"
  | 4%N => "4" | 5%N => "5" | 6%N => "6" | 7%N => "7"
  | 8%N => "8" | 9%N => "9" | 10%N => "a" | 11%N => "b"
  | 12%N => "c" | 13%N => "d" | 14%N => "e" | _ => "f"
  end%char.

Definition isHexDigit (c : ascii) : bool :=
  let n := N_of_ascii c in
  ((48 <=? n) && (n <=? 57) || (97 <=? n) && (n <=? 102))%N.

Fixpoint toHex (bytes : list Byte.byte) : string :=
  match bytes with
  | [] => EmptyString
  | b :: rest =>
      let n := Byte.to_N b in
      String (hexDigit (n / 16)) (String (hexDigit (n mod 16)) (toHex rest))
  end.

Fixpoint allChars (p : ascii -> bool) (s : string) : bool :=
  match s with
  | EmptyString => true
  | String c rest => p c && allChars p rest
  end.

(** ** The methods of [StorageManager] *)

Section Methods.

(** The ambient sources: the successive readings of [Date.now()] and the
    bytes that [crypto.randomBytes] hands out, in order. *)
Variable clock : nat -> Z.
Variable entropy : nat -> Byte.byte.

Local Open Scope js_scope.

Definition Date_now : M Z :=
  fun w =>
    (Normal (clock (nowReads w)),
     {| this := this w;
        nowReads := S (nowReads w);
        bytesRead := bytesRead w;
        console := console w |}).

(** The limits of the runtime (Node on a 64-bit platform): the largest size
    [crypto.randomBytes] accepts and the length of the longest string. *)
Definition kMaxPossibleLength : Z := 2 ^ 31 - 1.

Definition kStringMaxLength : Z := 2 ^ 29 - 24.

(** [crypto.randomBytes(n / 2)].  Node rejects a size that is negative or
    above [kMaxPossibleLength] with a RangeError that reports the size, and
    truncates a fractional one; the bytes come from the entropy source. *)
Definition randomBytes_half (n : Z) : M (list Byte.byte) :=
  fun w =>
    if (n <? 0) || (2 * kMaxPossibleLength <? n)
    then (Throw (RangeError {| doubled := n |}), w)
    else
      let size := Z.to_nat (Z.quot n 2) in
      (Normal (List.map (fun i => entropy (bytesRead w + i)%nat) (List.seq 0 size)),
       {| this := this w;
          nowReads := nowReads w;
          bytesRead := (bytesRead w + size)%nat;
          console := console w |}).

(** [buffer.toString('hex')]: two characters per byte, unless that is more
    than the longest string. *)
Definition toString_hex (bytes : list Byte.byte) : M string :=
  let length := 2 * Z.of_nat (List.length bytes) in
  if kStringMaxLength <? length
  then throw (ErrStringTooLong length)
  else ret (toHex bytes).

(** The constructor: defaults, the warning about the key length, and the
    interval timer. *)
Definition keyLengthWarning : string :=
  "Key length is recommended to be greater than 6 and less than 32".

Definition new_StorageManager (cfg : IConfig) : State :=
  {| this :=
       {| _storage := JsMap.empty;
          _maxItems :=
            match cfg_maxItems cfg with Some m => Finite m | None => Infinity end;
          _expireMs :=
            match cfg_expireMs cfg with Some e => e | None => 24 * 60 * 60 * 1000 end;
          _keyLength :=
            match cfg_keyLength cfg with Some l => l | None => 8 end;
          _cleanupInterval := true;
          _cleanupIntervalMs :=
            match cfg_cleanupIntervalMs cfg with
            | Some i => i
            | None => 24 * 60 * 60 * 1000
            end |};
     nowReads := 0;
     bytesRead := 0;
     console :=
       match cfg_keyLength cfg with
       | Some l =>
           if negb (l =? 0) && ((l <? 6) || (32 <? l))
           then [keyLengthWarning] else []
       | None => []
       end |}.

Definition maxItems : M Limit := field _maxItems.

Definition expireMs : M Z := field _expireMs.

Definition size : M nat := field (fun o => JsMap.size (_storage o)).

(** [cleanup]: one pass over the entries; an entry whose [expireAt]
    compares greater than the current time is deleted from the map.
    Deleting the entry under the iterator does not disturb the iteration. *)
Definition cleanup : M unit :=
  now <- Date_now ;;
  let currentTime := new_Date now in
  entries <- field _storage ;;
  store
    (List.fold_left
       (fun (m : JsMap.t TStorageValue) (kd : string * TStorageValue) =>
          let (key, data) := kd in
          if JsDate.gt (expireAt data) currentTime
          then JsMap.remove key m
          else m)
       entries entries).

(** The starting bound of [lruKey], [new Date('275760-12-31')].  The text
    names a day 109 days after the last representable one. *)
Definition lruKeyBound : Date := new_Date_ymd 0 275760 12 31.

(** [lruKey]: the first key whose [expireAt] compares less than every bound
    seen so far, if any. *)
Definition lruKey : M (option string) :=
  entries <- field _storage ;;
  ret
    (fst
       (List.fold_left
          (fun (acc : option string * Date) (kd : string * TStorageValue) =>
             let (key, data) := kd in
             if JsDate.lt (expireAt data) (snd acc)
             then (Some key, expireAt data)
             else acc)
          entries (None, lruKeyBound))).

(** The own properties that object spread copies from a payload, when the
    payload passes the test [typeof value === 'object' && value !== null &&
    !Array.isArray(value)].  A [Date] payload passes it and has none, and
    neither has an object whose properties all come from its class. *)
Definition spreadable (value : JsVal) : option (JsMap.t JsVal) :=
  match value with
  | VObject ps => Some (JsMap.assign JsMap.empty ps)
  | VDate _ => Some JsMap.empty
  | VUnprintable _ => Some JsMap.empty
  | _ => None
  end.

(** [buildData]: the payload's properties, or the payload under [value],
    with [expireAt] and [updateAt] written last. *)
Definition buildData (value : JsVal) : M TStorageValue :=
  now <- Date_now ;;
  e <- expireMs ;;
  let expireAt := new_Date (now + e) in
  let updateAt := new_Date now in
  match spreadable value with
  | Some ps =>
      ret {| props := JsMap.remove "updateAt" (JsMap.remove "expireAt" ps);
             expireAt := expireAt;
             updateAt := updateAt |}
  | None =>
      ret {| props := [("value", value)];
             expireAt := expireAt;
             updateAt := updateAt |}
  end.

(** [validateKey]: anything but a string is a TypeError, whose message is
    built from the key: when converting the key to a string throws, that
    error is what the call raises.  (A symbol cannot be converted either,
    and the error of that is a TypeError as well.)  The string is handed
    back so that the caller can use it as a map key. *)
Definition validateKey (key : JsVal) : M string :=
  match key with
  | VString k => ret k
  | VUnprintable error => throw (Raised error)
  | _ => throw (TypeError key)
  end.

(** [this._storage.delete(k)] where [k] may be [undefined]: no entry has
    that key, because every key was validated to be a string. *)
Definition storage_delete (k : option string) : M bool :=
  match k with
  | Some k =>
      m <- field _storage ;;
      store (JsMap.remove k m) ;;
      ret (JsMap.has k m)
  | None => ret false
  end.

Definition handleMaxCapacity : M unit :=
  n <- size ;;
  m <- maxItems ;;
  when (reaches n m) cleanup ;;
  n <- size ;;
  when (reaches n m)
    (k <- lruKey ;;
     storage_delete k ;;
     ret tt).

(** The own properties of a stored object. *)
Definition ownProperties (data : TStorageValue) : JsMap.t JsVal :=
  (props data ++ [("expireAt", VDate (expireAt data));
                  ("updateAt", VDate (updateAt data))])%list.

(** [{ success: false }] and [{ success: true, key, ...data }]. *)
Definition failure : TStorageResult := [("success", VBool false)].

Definition stored (key : string) (data : TStorageValue) : TStorageResult :=
  JsMap.assign [("success", VBool true); ("key", VString key)]
               (ownProperties data).

Definition storage_set (k : string) (data : TStorageValue) : M unit :=
  m <- field _storage ;;
  store (JsMap.set k data m).

Definition storage_has (k : string) : M bool :=
  m <- field _storage ;;
  ret (JsMap.has k m).

Definition add (key value : JsVal) : M TStorageResult :=
  k <- validateKey key ;;
  present <- storage_has k ;;
  if present then ret failure
  else
    handleMaxCapacity ;;
    data <- buildData value ;;
    storage_set k data ;;
    ret (stored k data).

Definition update (key value : JsVal) : M TStorageResult :=
  k <- validateKey key ;;
  present <- storage_has k ;;
  if negb present then ret failure
  else
    handleMaxCapacity ;;
    data <- buildData value ;;
    storage_set k data ;;
    ret (stored k data).

Definition upsert (key value : JsVal) : M TStorageResult :=
  k <- validateKey key ;;
  present <- storage_has k ;;
  when (negb present) handleMaxCapacity ;;
  data <- buildData value ;;
  storage_set k data ;;
  ret (stored k data).

Definition get (key : JsVal) : M (option TStorageValue) :=
  k <- validateKey key ;;
  m <- field _storage ;;
  ret (JsMap.get k m).

Definition delete (key : JsVal) : M bool :=
  k <- validateKey key ;;
  storage_delete (Some k).

Definition clear : M unit := store JsMap.empty.

Definition stopCleanup : M unit :=
  fun w =>
    (Normal tt,
     with_this
       {| _storage := _storage (this w);
          _maxItems := _maxItems (this w);
          _expireMs := _expireMs (this w);
          _keyLength := _keyLength (this w);
          _cleanupInterval := false;
          _cleanupIntervalMs := _cleanupIntervalMs (this w) |} w).

(** The callback of [setInterval]: it runs [cleanup] while the timer is
    armed. *)
Definition intervalFires : M unit :=
  armed <- field _cleanupInterval ;;
  when armed cleanup.

Definition generateKey : M string :=
  n <- field _keyLength ;;
  bytes <- randomBytes_half n ;;
  toString_hex bytes.

Definition maxRetries : nat := 15.

(** The [do ... while (++retryCount <= maxRetries)] loop, by the number of
    retries still allowed: [retries = maxRetries - retryCount]. *)
Fixpoint getUniqueKey_loop (retries : nat) : M string :=
  key <- generateKey ;;
  present <- storage_has key ;;
  if negb present then ret key
  else
    match retries with
    | O => ret key
    | S retries' => getUniqueKey_loop retries'
    end.

Definition getUniqueKey : M string := getUniqueKey_loop maxRetries.

(** What can happen to an instance: a call of a public method, or the
    interval timer firing. *)
Inductive Call : Type :=
| CallAdd (key value : JsVal)
| CallUpdate (key value : JsVal)
| CallUpsert (key value : JsVal)
| CallGet (key : JsVal)
| CallDelete (key : JsVal)
| CallClear
| CallStopCleanup
| CallGetUniqueKey
| IntervalFires.

Definition perform (c : Call) (w : State) : State :=
  match c with
  | CallAdd key value => snd (add key value w)
  | CallUpdate key value => snd (update key value w)
  | CallUpsert key value => snd (upsert key value w)
  | CallGet key => snd (get key w)
  | CallDelete key => snd (delete key w)
  | CallClear => snd (clear w)
  | CallStopCleanup => snd (stopCleanup w)
  | CallGetUniqueKey => snd (getUniqueKey w)
  | IntervalFires => snd (intervalFires w)
  end.

Definition performAll (calls : list Call) (w : State) : State :=
  List.fold_left (fun w c => perform c w) calls w.

(** The states an instance built from [cfg] can be in. *)
Inductive reachable (cfg : IConfig) : State -> Prop :=
| reachable_new : reachable cfg (new_StorageManager cfg)
| reachable_perform (c : Call) (w : State) :
    reachable cfg w -> reachable cfg (perform c w).

End Methods.

(** Shorthands for observing a state. *)
Definition storage (w : State) : JsMap.t TStorageValue := _storage (this w).

Definition sizeOf (w : State) : nat := JsMap.size (storage w).

(** Whether a payload is an object that has an own property [name]. *)
Definition carries (name : string) (value : JsVal) : bool :=
  match value with
  | VObject ps => List.existsb (fun kv => String.eqb name (fst kv)) ps
  | _ => false
  end.

(** The state after one more reading of [Date.now()]. *)
Definition afterReading (w : State) : State :=
  {| this := this w;
     nowReads := S (nowReads w);
     bytesRead := bytesRead w;
     console := console w |}.

(** The state with the map replaced. *)
Definition withStorage (m : JsMap.t TStorageValue) (w : State) : State :=
  with_this (with_storage m (this w)) w.

(** The entries a sweep at time [t] leaves in place: those whose [expireAt]
    does not compare greater than [t]. *)
Definition survivors (t : Date) (m : JsMap.t TStorageValue)
  : JsMap.t TStorageValue :=
  List.filter (fun kd => negb (JsDate.gt (expireAt (snd kd)) t)) m.

(** The object [buildData] produces from a reading [now] of the clock and a
    time to live [e]. *)
Definition stamped (now e : Z) (value : JsVal) : TStorageValue :=
  {| props :=
       match spreadable value with
       | Some ps => JsMap.remove "updateAt" (JsMap.remove "expireAt" ps)
       | None => [("value", value)]
       end;
     expireAt := new_Date (now + e);
     updateAt := new_Date now |}.

(** The state [handleMaxCapacity] leaves: swept when the bound was reached,
    untouched otherwise. *)
Definition afterCapacity (clock : nat -> Z) (w : State) : State :=
  if reaches (sizeOf w) (_maxItems (this w))
  then withStorage (survivors (new_Date (clock (nowReads w))) (storage w))
                   (afterReading w)
  else w.

(** The object written under a key by a write that starts in [w]. *)
Definition dataAt (clock : nat -> Z) (value : JsVal) (w : State)
  : TStorageValue :=
  stamped (clock (nowReads w)) (_expireMs (this w)) value.

(** The state after [buildData] and [this._storage.set] in [w]. *)
Definition written (clock : nat -> Z) (k : string) (value : JsVal) (w : State)
  : State :=
  withStorage (JsMap.set k (dataAt clock value w) (storage w)) (afterReading w).

(** The key lengths with which [generateKey] returns: the size passes the
    check of [crypto.randomBytes] and the text is not longer than the longest
    string. *)
Definition keyLengthAccepted (w : State) : Prop :=
  0 <= _keyLength (this w) <= 2 * kMaxPossibleLength
  /\ 2 * (Z.quot (_keyLength (this w)) 2) <= kStringMaxLength.

(** The number of random bytes behind one generated key. *)
Definition keyBytes (w : State) : nat :=
  Z.to_nat (Z.quot (_keyLength (this w)) 2).

(** The state after [n] more random bytes were taken. *)
Definition afterDrawing (n : nat) (w : State) : State :=
  {| this := this w;
     nowReads := nowReads w;
     bytesRead := (bytesRead w + n)%nat;
     console := console w |}.

(** The key that the [i]-th call of [generateKey] (from 0) yields when the
    calls start in [w]. *)
Definition candidate (entropy : nat -> Byte.byte) (w : State) (i : nat)
  : string :=
  toHex (List.map (fun j => entropy (bytesRead w + i * keyBytes w + j)%nat)
                  (List.seq 0 (keyBytes w))).

(** ** Concrete configurations and sources, for the scenarios *)

Definition config (maxItems expireMs keyLength cleanupIntervalMs : option Z)
  : IConfig :=
  {| cfg_maxItems := maxItems;
     cfg_expireMs := expireMs;
     cfg_keyLength := keyLength;
     cfg_cleanupIntervalMs := cleanupIntervalMs |}.

(** A clock whose successive readings are the given ones (and stay at the
    last one afterwards). *)
Definition readings (ts : list Z) : nat -> Z :=
  fun n => List.nth n ts (List.last ts 0).

(** An entropy source that repeats the given bytes. *)
Definition cycling (bs : list Byte.byte) : nat -> Byte.byte :=
  fun n => List.nth (n mod List.length bs) bs Byte.x00.

Definition zeroBytes : nat -> Byte.byte := cycling [Byte.x00].

(** A store with the default configuration, and the same after
    [add('a', 1)] at time 0. *)
Definition emptyStore : State :=
  new_StorageManager (config None None None None).

Definition storeWithA : State :=
  perform (readings [0]) zeroBytes (CallAdd (VString "a") (VNumber 1))
          emptyStore.

(** The own property [name] that object spread copies from a payload. *)
Definition ownProperty (name : string) (value : JsVal) : option JsVal :=
  match spreadable value with
  | Some ps => JsMap.get name ps
  | None => None
  end.

(** ** What no method touches *)

(** The configuration held by an instance. *)
Definition configOf (o : StorageManager) : Limit * Z * Z * Z :=
  (_maxItems o, _expireMs o, _keyLength o, _cleanupIntervalMs o).

(** [evolves w w']: from [w] to [w'] the configuration is the same, the
    timer has not been armed again, the console has not been written to, and
    no reading of the clock or random byte has been handed back. *)
Definition evolves (w w' : State) : Prop :=
  configOf (this w') = configOf (this w)
  /\ (_cleanupInterval (this w') = true -> _cleanupInterval (this w) = true)
  /\ console w' = console w
  /\ (nowReads w <= nowReads w')%nat
  /\ (bytesRead w <= bytesRead w')%nat.

(** A computation that only ever [evolves] the state. *)
Definition steady {A} (c : M A) : Prop := forall w, evolves w (snd (c w)).

(** Every entry of the map was stamped from a reading of the clock already
    taken, with the time to live of the instance. *)
Definition stampedFromClock (clock : nat -> Z) (w : State) : Prop :=
  forall (k : string) (d : TStorageValue),
    In (k, d) (storage w) ->
    exists i : nat,
      (i < nowReads w)%nat
      /\ updateAt d = new_Date (clock i)
      /\ expireAt d = new_Date (clock i + _expireMs (this w)).

(** A store bounded to one entry that holds the expired entry [a]: built at
    time 0 with [expireMs = 1000], next read at time 2000. *)
Definition fullClock : nat -> Z := readings [0; 2000; 2001; 2002].

Definition fullStore : State :=
  perform fullClock zeroBytes (CallAdd (VString "a") (VNumber 1))
          (new_StorageManager (config (Some 1) (Some 1000) None None)).

(** * Properties *)

(** ** Facts about insertion-ordered maps *)

Module JsMapFacts.
Section Facts.

Variable V : Type.
Implicit Types (m : JsMap.t V) (k : string) (v : V).

Lemma has_get k m : JsMap.has k m = true <-> exists v, JsMap.get k m = Some v.
Proof.
  unfold JsMap.has. destruct (JsMap.get k m) as [v|].
  - split; [eauto | reflexivity].
  - split; [discriminate | intros [v H]; discriminate].
Qed.

Lemma has_false_get k m : JsMap.has k m = false <-> JsMap.get k m = None.
Proof.
  unfold JsMap.has. destruct (JsMap.get k m); split; congruence.
Qed.

Lemma has_cons k k' v m :
  JsMap.has k ((k', v) :: m) = String.eqb k k' || JsMap.has k m.
Proof.
  unfold JsMap.has. simpl. destruct (String.eqb k k'); reflexivity.
Qed.

Lemma has_In k m : JsMap.has k m = true <-> In k (JsMap.keys m).
Proof.
  induction m as [|[k' v'] m IH]; simpl.
  - split; [discriminate | contradiction].
  - rewrite has_cons, orb_true_iff, IH, String.eqb_eq.
    split; intros [H|H]; auto.
Qed.

Lemma get_set_eq k v m : JsMap.get k (JsMap.set k v m) = Some v.
Proof.
  induction m as [|[k' v'] m IH]; simpl.
  - now rewrite String.eqb_refl.
  - destruct (String.eqb k k') eqn:E; simpl; rewrite E; auto.
Qed.

Lemma get_set_neq k k' v m :
  k <> k' -> JsMap.get k' (JsMap.set k v m) = JsMap.get k' m.
Proof.
  intros Hne. induction m as [|[k0 v0] m IH]; simpl.
  - destruct (String.eqb k' k) eqn:E; auto.
    apply String.eqb_eq in E. congruence.
  - destruct (String.eqb k k0) eqn:E; simpl.
    + apply String.eqb_eq in E. subst k0.
      destruct (String.eqb k' k) eqn:E'; auto.
      apply String.eqb_eq in E'. congruence.
    + now rewrite IH.
Qed.

Lemma has_set_eq k v m : JsMap.has k (JsMap.set k v m) = true.
Proof. unfold JsMap.has. now rewrite get_set_eq. Qed.

Lemma keys_set_present k v m :
  JsMap.has k m = true -> JsMap.keys (JsMap.set k v m) = JsMap.keys m.
Proof.
  induction m as [|[k' v'] m IH]; simpl; intros H.
  - discriminate.
  - rewrite has_cons in H.
    destruct (String.eqb k k') eqn:E; simpl; auto.
    f_equal. apply IH. exact H.
Qed.

Lemma set_absent k v m :
  JsMap.has k m = false -> JsMap.set k v m = (m ++ [(k, v)])%list.
Proof.
  induction m as [|[k' v'] m IH]; simpl; intros H; auto.
  rewrite has_cons in H. apply orb_false_iff in H as [E H].
  rewrite E. f_equal. auto.
Qed.

Lemma size_set_absent k v m :
  JsMap.has k m = false -> JsMap.size (JsMap.set k v m) = S (JsMap.size m).
Proof.
  intros H. rewrite set_absent by assumption. unfold JsMap.size.
  rewrite length_app. simpl. lia.
Qed.

Lemma size_set_present k v m :
  JsMap.has k m = true -> JsMap.size (JsMap.set k v m) = JsMap.size m.
Proof.
  intros H. unfold JsMap.size.
  rewrite <- (length_map fst), <- (length_map fst m).
  fold (JsMap.keys (JsMap.set k v m)). fold (JsMap.keys m).
  now rewrite keys_set_present.
Qed.

Lemma wf_set k v m : JsMap.wf m -> JsMap.wf (JsMap.set k v m).
Proof.
  unfold JsMap.wf. intros H.
  destruct (JsMap.has k m) eqn:E.
  - now rewrite keys_set_present.
  - rewrite set_absent by assumption. unfold JsMap.keys. rewrite map_app. simpl.
    apply NoDup_app; auto.
    + constructor; [intros [] | constructor].
    + intros x Hx [Hk|[]]. subst x.
      apply has_In in Hx. congruence.
Qed.

Lemma remove_absent k m : JsMap.has k m = false -> JsMap.remove k m = m.
Proof.
  induction m as [|[k' v'] m IH]; simpl; intros H; auto.
  rewrite has_cons in H. apply orb_false_iff in H as [E H].
  rewrite E. f_equal. auto.
Qed.

Lemma size_remove_present k m :
  JsMap.has k m = true -> S (JsMap.size (JsMap.remove k m)) = JsMap.size m.
Proof.
  induction m as [|[k' v'] m IH]; simpl; intros H.
  - discriminate.
  - rewrite has_cons in H. unfold JsMap.size in *.
    destruct (String.eqb k k') eqn:E; simpl; [reflexivity|].
    f_equal. apply IH. exact H.
Qed.

Lemma keys_remove_incl k m x :
  In x (JsMap.keys (JsMap.remove k m)) -> In x (JsMap.keys m).
Proof.
  induction m as [|[k' v'] m IH]; simpl; auto.
  destruct (String.eqb k k'); simpl; intuition.
Qed.

Lemma wf_remove k m : JsMap.wf m -> JsMap.wf (JsMap.remove k m).
Proof.
  unfold JsMap.wf.
  induction m as [|[k' v'] m IH]; simpl; intros H; auto.
  inversion H as [|? ? Hnotin Hnd]; subst.
  destruct (String.eqb k k'); simpl; auto.
  constructor; auto.
  intros Hin. apply Hnotin. eapply keys_remove_incl; eauto.
Qed.

Lemma has_remove_eq k m :
  JsMap.wf m -> JsMap.has k (JsMap.remove k m) = false.
Proof.
  unfold JsMap.wf.
  induction m as [|[k' v'] m IH]; simpl; intros H; auto.
  inversion H as [|? ? Hnotin Hnd]; subst.
  destruct (String.eqb k k') eqn:E.
  - apply String.eqb_eq in E. subst k'.
    destruct (JsMap.has k m) eqn:Hh; auto.
    apply has_In in Hh. contradiction.
  - rewrite has_cons, E. simpl. auto.
Qed.

Lemma get_remove_neq k k' m :
  k <> k' -> JsMap.get k' (JsMap.remove k m) = JsMap.get k' m.
Proof.
  intros Hne. induction m as [|[k0 v0] m IH]; simpl; auto.
  destruct (String.eqb k k0) eqn:E; simpl.
  - apply String.eqb_eq in E. subst k0.
    destruct (String.eqb k' k) eqn:E'; auto.
    apply String.eqb_eq in E'. congruence.
  - now rewrite IH.
Qed.

(** On a map with unique keys, removing a key drops every entry under it. *)
Lemma remove_filter k m :
  JsMap.wf m ->
  JsMap.remove k m = List.filter (fun kv => negb (String.eqb k (fst kv))) m.
Proof.
  unfold JsMap.wf.
  induction m as [|[k' v'] m IH]; simpl; intros H; auto.
  inversion H as [|? ? Hnotin Hnd]; subst.
  destruct (String.eqb k k') eqn:E; simpl.
  - apply String.eqb_eq in E. subst k'.
    rewrite <- IH by assumption.
    symmetry. apply remove_absent.
    destruct (JsMap.has k m) eqn:Hh; auto.
    apply has_In in Hh. contradiction.
  - f_equal. auto.
Qed.

Lemma keys_filter_incl (p : string * V -> bool) m x :
  In x (JsMap.keys (List.filter p m)) -> In x (JsMap.keys m).
Proof.
  unfold JsMap.keys. rewrite !in_map_iff.
  intros [kv [Hk Hin]]. apply filter_In in Hin as [Hin _]. eauto.
Qed.

Lemma wf_filter (p : string * V -> bool) m :
  JsMap.wf m -> JsMap.wf (List.filter p m).
Proof.
  unfold JsMap.wf.
  induction m as [|[k' v'] m IH]; simpl; intros H; auto.
  inversion H as [|? ? Hnotin Hnd]; subst.
  destruct (p (k', v')); simpl; auto.
  constructor; auto.
  intros Hin. apply Hnotin. eapply keys_filter_incl; eauto.
Qed.

Lemma get_In k v m : JsMap.get k m = Some v -> In (k, v) m.
Proof.
  induction m as [|[k' v'] m IH]; simpl; [discriminate|].
  destruct (String.eqb k k') eqn:E; intros H.
  - apply String.eqb_eq in E. left. congruence.
  - right. auto.
Qed.

Lemma In_get k v m : JsMap.wf m -> In (k, v) m -> JsMap.get k m = Some v.
Proof.
  unfold JsMap.wf.
  induction m as [|[k' v'] m IH]; simpl; intros Hwf Hin; [contradiction|].
  inversion Hwf as [|? ? Hnotin Hnd]; subst.
  destruct Hin as [Heq|Hin].
  - inversion Heq; subst. now rewrite String.eqb_refl.
  - destruct (String.eqb k k') eqn:E; auto.
    apply String.eqb_eq in E. subst k'.
    exfalso. apply Hnotin. unfold JsMap.keys.
    apply in_map_iff. exists (k, v). auto.
Qed.

(** Looking a key up after a filter that depends on the entry alone. *)
Lemma get_filter (p : string * V -> bool) k m :
  JsMap.wf m ->
  JsMap.get k (List.filter p m) =
  match JsMap.get k m with
  | Some v => if p (k, v) then Some v else None
  | None => None
  end.
Proof.
  unfold JsMap.wf.
  induction m as [|[k' v'] m IH]; simpl; intros Hwf; auto.
  inversion Hwf as [|? ? Hnotin Hnd]; subst.
  destruct (String.eqb k k') eqn:E.
  - apply String.eqb_eq in E. subst k'.
    destruct (p (k, v')) eqn:Hp; simpl.
    + now rewrite String.eqb_refl.
    + rewrite IH by assumption.
      destruct (JsMap.get k m) as [v|] eqn:Hg; auto.
      exfalso. apply Hnotin. apply has_In. apply has_get. eauto.
  - destruct (p (k', v')); simpl; [rewrite E|]; auto.
Qed.

End Facts.
End JsMapFacts.

Section AssignFacts.

Variable V : Type.
Implicit Types (dst src : JsMap.t V) (k : string) (v : V).

Lemma assign_app dst src1 src2 :
  JsMap.assign dst (src1 ++ src2)%list = JsMap.assign (JsMap.assign dst src1) src2.
Proof. unfold JsMap.assign. apply fold_left_app. Qed.

Lemma get_assign_notin k src : forall dst,
  ~ In k (JsMap.keys src) ->
  JsMap.get k (JsMap.assign dst src) = JsMap.get k dst.
Proof.
  induction src as [|[k' v'] src IH]; simpl; intros dst Hnotin; auto.
  unfold JsMap.assign in *. simpl.
  rewrite IH by tauto.
  apply JsMapFacts.get_set_neq. intros ->. tauto.
Qed.

Lemma has_assign_empty_notin k src :
  ~ In k (JsMap.keys src) -> JsMap.has k (JsMap.assign JsMap.empty src) = false.
Proof.
  intros H. apply JsMapFacts.has_false_get.
  now rewrite get_assign_notin.
Qed.

End AssignFacts.

(** ** Facts about dates *)

Lemma lt_InvalidDate_r (d : Date) : JsDate.lt d InvalidDate = false.
Proof. destruct d; reflexivity. Qed.

Lemma gt_InvalidDate_l (d : Date) : JsDate.gt InvalidDate d = false.
Proof. destruct d; reflexivity. Qed.

Lemma gt_TimeValue (x y : Z) :
  JsDate.gt (TimeValue x) (TimeValue y) = (y <? x).
Proof. reflexivity. Qed.

Lemma TimeClip_in_range (t : Z) :
  Z.abs t <= maxTimeValue -> TimeClip t = TimeValue t.
Proof.
  intros H. unfold TimeClip.
  destruct (Z.leb_spec (Z.abs t) maxTimeValue); [reflexivity | lia].
Qed.

(** The last representable day is 13 September 275760. *)
Lemma last_day : MakeDate (MakeDay 275760 8 13) 0 = maxTimeValue.
Proof. reflexivity. Qed.

(** 31 December 275760 is not a date, under whatever zone offset of less
    than a day the text is read. *)
Lemma end_of_275760_invalid (tza : Z) :
  Z.abs tza <= msPerDay -> new_Date_ymd tza 275760 12 31 = InvalidDate.
Proof.
  intros H. unfold new_Date_ymd, TimeClip.
  replace (MakeDate (MakeDay 275760 (12 - 1) 31) 0) with 8640009417600000
    by reflexivity.
  unfold msPerDay, maxTimeValue in *.
  destruct (Z.leb_spec (Z.abs (8640009417600000 - tza)) 8640000000000000);
    [lia | reflexivity].
Qed.

Lemma lruKeyBound_invalid : lruKeyBound = InvalidDate.
Proof. reflexivity. Qed.

(** ** The private methods *)

Section PrivateMethods.

Variable clock : nat -> Z.

Lemma withStorage_same (w : State) : withStorage (storage w) w = w.
Proof. destruct w as [[m mx e kl ci cims] n b c]. reflexivity. Qed.

Lemma storage_withStorage m w : storage (withStorage m w) = m.
Proof. reflexivity. Qed.

Lemma storage_afterReading w : storage (afterReading w) = storage w.
Proof. reflexivity. Qed.

(** The loop of [cleanup], as a fold that deletes from the map, removes
    the entries under the keys the loop condemns. *)
Lemma sweep_fold (t : Date) (l : JsMap.t TStorageValue) :
  forall acc : JsMap.t TStorageValue,
    JsMap.wf acc ->
    List.fold_left
      (fun (m : JsMap.t TStorageValue) (kd : string * TStorageValue) =>
         let (key, data) := kd in
         if JsDate.gt (expireAt data) t then JsMap.remove key m else m)
      l acc
    = List.filter
        (fun kd =>
           negb (List.existsb
                   (fun kd' => String.eqb (fst kd') (fst kd)
                               && JsDate.gt (expireAt (snd kd')) t) l))
        acc.
Proof.
  induction l as [|[key data] l IH]; intros acc Hwf; simpl.
  - induction acc as [|a acc IHacc]; simpl; auto.
    f_equal. apply IHacc. now inversion Hwf.
  - destruct (JsDate.gt (expireAt data) t) eqn:Hgt.
    + rewrite IH by now apply JsMapFacts.wf_remove.
      rewrite JsMapFacts.remove_filter by assumption.
      clear IH Hwf.
      induction acc as [|[k' d'] acc IHacc]; simpl; auto.
      rewrite andb_true_r.
      destruct (String.eqb key k') eqn:E; simpl; auto.
      rewrite IHacc. reflexivity.
    + rewrite IH by assumption.
      apply filter_ext. intros [k' d']. simpl.
      now rewrite andb_false_r.
Qed.

Lemma condemned_own (t : Date) (m : JsMap.t TStorageValue) kd :
  JsMap.wf m -> In kd m ->
  List.existsb
    (fun kd' => String.eqb (fst kd') (fst kd)
                && JsDate.gt (expireAt (snd kd')) t) m
  = JsDate.gt (expireAt (snd kd)) t.
Proof.
  intros Hwf Hin. destruct kd as [k d]. simpl.
  destruct (JsDate.gt (expireAt d) t) eqn:Hgt.
  - apply existsb_exists. exists (k, d). simpl.
    now rewrite String.eqb_refl, Hgt.
  - destruct (existsb _ m) eqn:Hex; auto.
    apply existsb_exists in Hex as [[k' d'] [Hin' Hc]]. simpl in Hc.
    apply andb_true_iff in Hc as [Hk Hg].
    apply String.eqb_eq in Hk. subst k'.
    apply JsMapFacts.In_get in Hin; [|exact Hwf].
    apply JsMapFacts.In_get in Hin'; [|exact Hwf].
    congruence.
Qed.

Lemma sweep_survivors (t : Date) (m : JsMap.t TStorageValue) :
  JsMap.wf m ->
  List.fold_left
    (fun (m : JsMap.t TStorageValue) (kd : string * TStorageValue) =>
       let (key, data) := kd in
       if JsDate.gt (expireAt data) t then JsMap.remove key m else m)
    m m
  = survivors t m.
Proof.
  intros Hwf. rewrite sweep_fold by assumption.
  unfold survivors. apply filter_ext_in. intros kd Hin.
  now rewrite condemned_own.
Qed.

(** What one run of [cleanup] does. *)
Lemma cleanup_run (w : State) :
  JsMap.wf (storage w) ->
  cleanup clock w
  = (Normal tt,
     withStorage (survivors (new_Date (clock (nowReads w))) (storage w))
                 (afterReading w)).
Proof.
  intros Hwf. unfold cleanup, bind, Date_now, field, store. simpl.
  fold (storage w). rewrite sweep_survivors by assumption. reflexivity.
Qed.

(** [lruKey] never finds a key: no date compares less than the bound. *)
Lemma lruKey_undefined (w : State) : lruKey w = (Normal None, w).
Proof.
  unfold lruKey, bind, field, ret. simpl.
  rewrite lruKeyBound_invalid.
  assert (H : forall l : JsMap.t TStorageValue,
             List.fold_left
               (fun (acc : option string * Date) (kd : string * TStorageValue) =>
                  let (key, data) := kd in
                  if JsDate.lt (expireAt data) (snd acc)
                  then (Some key, expireAt data)
                  else acc)
               l (None, InvalidDate) = (None, InvalidDate)).
  { induction l as [|[k d] l IH]; simpl; auto.
    now rewrite lt_InvalidDate_r. }
  now rewrite H.
Qed.

(** [handleMaxCapacity] sweeps when the bound is reached and deletes
    nothing else. *)
Lemma handleMaxCapacity_run (w : State) :
  JsMap.wf (storage w) ->
  handleMaxCapacity clock w
  = (Normal tt,
     if reaches (sizeOf w) (_maxItems (this w))
     then withStorage (survivors (new_Date (clock (nowReads w))) (storage w))
                      (afterReading w)
     else w).
Proof.
  intros Hwf.
  unfold handleMaxCapacity, bind, size, maxItems, field. cbv beta iota.
  change (JsMap.size (_storage (this w))) with (sizeOf w).
  destruct (reaches (sizeOf w) (_maxItems (this w))) eqn:Hr.
  - unfold when at 1. rewrite cleanup_run by assumption. cbv beta iota.
    match goal with |- context [when ?b _] => destruct b end.
    + unfold when, bind. rewrite lruKey_undefined. reflexivity.
    + reflexivity.
  - unfold when, ret. cbv beta iota.
    change (JsMap.size (_storage (this w))) with (sizeOf w).
    rewrite Hr. reflexivity.
Qed.

(** The shape of the state [handleMaxCapacity] leaves, for any map: when
    the bound is reached the clock is read once and only the map changes. *)
Lemma handleMaxCapacity_shape (w : State) :
  exists m : JsMap.t TStorageValue,
    handleMaxCapacity clock w
    = (Normal tt,
       if reaches (sizeOf w) (_maxItems (this w))
       then withStorage m (afterReading w)
       else w).
Proof.
  unfold handleMaxCapacity, bind, size, maxItems, field. cbv beta iota.
  change (JsMap.size (_storage (this w))) with (sizeOf w).
  destruct (reaches (sizeOf w) (_maxItems (this w))) eqn:Hr.
  - unfold when at 1. unfold cleanup, bind, Date_now, field, store.
    cbv beta iota. eexists.
    match goal with |- context [when ?b _] => destruct b end.
    + unfold when, bind. rewrite lruKey_undefined. reflexivity.
    + reflexivity.
  - exists (storage w). unfold when, ret. cbv beta iota.
    change (JsMap.size (_storage (this w))) with (sizeOf w).
    rewrite Hr. reflexivity.
Qed.

Lemma handleMaxCapacity_below (w : State) :
  reaches (sizeOf w) (_maxItems (this w)) = false ->
  handleMaxCapacity clock w = (Normal tt, w).
Proof.
  intros Hr.
  unfold handleMaxCapacity, bind, size, maxItems, field. cbv beta iota.
  change (JsMap.size (_storage (this w))) with (sizeOf w).
  rewrite Hr. unfold when, ret. cbv beta iota.
  change (JsMap.size (_storage (this w))) with (sizeOf w).
  rewrite Hr. reflexivity.
Qed.

Lemma buildData_run (value : JsVal) (w : State) :
  buildData clock value w
  = (Normal (stamped (clock (nowReads w)) (_expireMs (this w)) value),
     afterReading w).
Proof.
  unfold buildData, bind, Date_now, expireMs, field, stamped. simpl.
  destruct (spreadable value); reflexivity.
Qed.

Lemma wf_survivors t (m : JsMap.t TStorageValue) :
  JsMap.wf m -> JsMap.wf (survivors t m).
Proof. apply JsMapFacts.wf_filter. Qed.

End PrivateMethods.

(** ** The result object *)

Section ResultObject.

Lemma stored_expireAt (k : string) (d : TStorageValue) :
  JsMap.get "expireAt" (stored k d) = Some (VDate (expireAt d)).
Proof.
  unfold stored, ownProperties. rewrite assign_app.
  unfold JsMap.assign at 1. cbn [List.fold_left fst snd].
  rewrite JsMapFacts.get_set_neq by discriminate.
  apply JsMapFacts.get_set_eq.
Qed.

Lemma stored_updateAt (k : string) (d : TStorageValue) :
  JsMap.get "updateAt" (stored k d) = Some (VDate (updateAt d)).
Proof.
  unfold stored, ownProperties. rewrite assign_app.
  unfold JsMap.assign at 1. cbn [List.fold_left fst snd].
  apply JsMapFacts.get_set_eq.
Qed.

Lemma stored_success (k : string) (d : TStorageValue) :
  ~ In "success" (JsMap.keys (props d)) ->
  JsMap.get "success" (stored k d) = Some (VBool true).
Proof.
  intros Hnotin. unfold stored, ownProperties.
  rewrite get_assign_notin; [reflexivity|].
  unfold JsMap.keys. rewrite map_app, in_app_iff. simpl.
  intros [H|[H|[H|[]]]]; try discriminate. now apply Hnotin.
Qed.

Lemma carries_In (name : string) (ps : list (string * JsVal)) :
  carries name (VObject ps) = false -> ~ In name (JsMap.keys ps).
Proof.
  simpl. intros Hc Hin. unfold JsMap.keys in Hin.
  apply in_map_iff in Hin as [[k v] [Hk Hin]]. simpl in Hk. subst k.
  assert (Hex : List.existsb (fun kv => String.eqb name (fst kv)) ps = true).
  { apply existsb_exists. exists (name, v). split; auto.
    simpl. apply String.eqb_refl. }
  congruence.
Qed.

Lemma stamped_no_success (now e : Z) (value : JsVal) :
  carries "success" value = false ->
  ~ In "success" (JsMap.keys (props (stamped now e value))).
Proof.
  intros Hc Hin. unfold stamped in Hin. cbn [props] in Hin.
  destruct value; cbn [spreadable] in Hin;
    try (simpl in Hin; destruct Hin as [H|[]]; discriminate);
    try (simpl in Hin; contradiction).
  apply JsMapFacts.keys_remove_incl in Hin.
  apply JsMapFacts.keys_remove_incl in Hin.
  apply JsMapFacts.has_In in Hin.
  rewrite has_assign_empty_notin in Hin; [discriminate|].
  now apply carries_In.
Qed.

End ResultObject.

(** ** The public methods, step by step *)

Section PublicMethods.

Variable clock : nat -> Z.

Lemma write_run (k : string) (value : JsVal) (w : State) :
  bind (buildData clock value)
       (fun data => bind (storage_set k data) (fun _ => ret (stored k data))) w
  = (Normal (stored k (dataAt clock value w)), written clock k value w).
Proof.
  unfold bind at 1. rewrite buildData_run. reflexivity.
Qed.

Lemma add_run (k : string) (value : JsVal) (w : State) :
  JsMap.wf (storage w) ->
  add clock (VString k) value w
  = if JsMap.has k (storage w)
    then (Normal failure, w)
    else (Normal (stored k (dataAt clock value (afterCapacity clock w))),
          written clock k value (afterCapacity clock w)).
Proof.
  intros Hwf. unfold add, validateKey, storage_has, field.
  unfold bind at 1 2 3. unfold ret at 1 2. cbv beta iota.
  change (_storage (this w)) with (storage w).
  destruct (JsMap.has k (storage w)); [reflexivity|].
  unfold bind at 1. rewrite handleMaxCapacity_run by assumption.
  apply write_run.
Qed.

Lemma update_run (k : string) (value : JsVal) (w : State) :
  JsMap.wf (storage w) ->
  update clock (VString k) value w
  = if JsMap.has k (storage w)
    then (Normal (stored k (dataAt clock value (afterCapacity clock w))),
          written clock k value (afterCapacity clock w))
    else (Normal failure, w).
Proof.
  intros Hwf. unfold update, validateKey, storage_has, field.
  unfold bind at 1 2 3. unfold ret at 1 2. cbv beta iota.
  change (_storage (this w)) with (storage w).
  destruct (JsMap.has k (storage w)); [|reflexivity].
  unfold negb. cbv iota.
  unfold bind at 1. rewrite handleMaxCapacity_run by assumption.
  apply write_run.
Qed.

Lemma upsert_run (k : string) (value : JsVal) (w : State) :
  JsMap.wf (storage w) ->
  upsert clock (VString k) value w
  = if JsMap.has k (storage w)
    then (Normal (stored k (dataAt clock value w)), written clock k value w)
    else (Normal (stored k (dataAt clock value (afterCapacity clock w))),
          written clock k value (afterCapacity clock w)).
Proof.
  intros Hwf. unfold upsert, validateKey, storage_has, field.
  unfold bind at 1 2 3. unfold ret at 1 2. cbv beta iota.
  change (_storage (this w)) with (storage w).
  destruct (JsMap.has k (storage w)); unfold negb, when; cbv iota.
  - unfold bind at 1. unfold ret at 1. cbv beta iota. apply write_run.
  - unfold bind at 1. rewrite handleMaxCapacity_run by assumption.
    apply write_run.
Qed.

Lemma delete_run (k : string) (w : State) :
  delete (VString k) w
  = (Normal (JsMap.has k (storage w)),
     withStorage (JsMap.remove k (storage w)) w).
Proof. reflexivity. Qed.

Lemma get_run (k : string) (w : State) :
  get (VString k) w = (Normal (JsMap.get k (storage w)), w).
Proof. reflexivity. Qed.

Lemma afterCapacity_below (w : State) :
  reaches (sizeOf w) (_maxItems (this w)) = false -> afterCapacity clock w = w.
Proof. unfold afterCapacity. now intros ->. Qed.

Lemma wf_afterCapacity (w : State) :
  JsMap.wf (storage w) -> JsMap.wf (storage (afterCapacity clock w)).
Proof.
  intros Hwf. unfold afterCapacity.
  destruct (reaches _ _); auto.
  rewrite storage_withStorage. now apply wf_survivors.
Qed.

Lemma wf_written (k : string) (value : JsVal) (w : State) :
  JsMap.wf (storage w) -> JsMap.wf (storage (written clock k value w)).
Proof.
  intros Hwf. unfold written. rewrite storage_withStorage.
  now apply JsMapFacts.wf_set.
Qed.

(** After a sweep, a key maps to what it mapped to before unless the
    [expireAt] found there compares greater than the current time. *)
Lemma cleanup_get (k : string) (w : State) :
  JsMap.wf (storage w) ->
  JsMap.get k (storage (snd (cleanup clock w)))
  = match JsMap.get k (storage w) with
    | Some d =>
        if JsDate.gt (expireAt d) (new_Date (clock (nowReads w)))
        then None else Some d
    | None => None
    end.
Proof.
  intros Hwf. rewrite cleanup_run by assumption. cbn [snd].
  rewrite storage_withStorage. unfold survivors.
  rewrite JsMapFacts.get_filter by assumption.
  destruct (JsMap.get k (storage w)) as [d|]; [|reflexivity].
  cbn [snd]. now destruct (JsDate.gt _ _).
Qed.

(** [upsert] with a payload that has no own [success] property: the
    success object comes back, the entry carries fresh stamps, and the
    capacity policy has run exactly when the key was new. *)
Lemma upsert_plain_payload (k : string) (value : JsVal) (w : State) :
  JsMap.wf (storage w) ->
  carries "success" value = false ->
  let w1 := if JsMap.has k (storage w) then w else afterCapacity clock w in
  exists r : TStorageResult,
    upsert clock (VString k) value w = (Normal r, written clock k value w1)
    /\ JsMap.get "success" r = Some (VBool true)
    /\ JsMap.get "expireAt" r
       = Some (VDate (new_Date (clock (nowReads w1) + _expireMs (this w))))
    /\ JsMap.get "updateAt" r = Some (VDate (new_Date (clock (nowReads w1))))
    /\ JsMap.get k (storage (written clock k value w1))
       = Some (dataAt clock value w1).
Proof.
  intros Hwf Hplain w1.
  assert (He : _expireMs (this w1) = _expireMs (this w)).
  { subst w1. destruct (JsMap.has k (storage w)); [reflexivity|].
    unfold afterCapacity. now destruct (reaches _ _). }
  exists (stored k (dataAt clock value w1)). split; [|split; [|split; [|split]]].
  - rewrite upsert_run by assumption. subst w1.
    now destruct (JsMap.has k (storage w)).
  - apply stored_success. now apply stamped_no_success.
  - rewrite stored_expireAt. unfold dataAt, stamped. cbn [expireAt].
    now rewrite He.
  - now rewrite stored_updateAt.
  - unfold written. rewrite storage_withStorage.
    apply JsMapFacts.get_set_eq.
Qed.

End PublicMethods.

(** ** Key generation *)

Section KeyGeneration.

Variable entropy : nat -> Byte.byte.

Lemma hexDigit_isHexDigit (n : N) : isHexDigit (hexDigit n) = true.
Proof.
  destruct n as [|p]; [reflexivity|].
  do 4 (try destruct p as [p|p|]; try reflexivity).
Qed.

Lemma toHex_length (bytes : list Byte.byte) :
  String.length (toHex bytes) = (2 * List.length bytes)%nat.
Proof.
  induction bytes as [|b bytes IH]; simpl; [reflexivity|].
  rewrite IH. lia.
Qed.

Lemma toHex_allHex (bytes : list Byte.byte) :
  allChars isHexDigit (toHex bytes) = true.
Proof.
  induction bytes as [|b bytes IH]; simpl; [reflexivity|].
  now rewrite !hexDigit_isHexDigit, IH.
Qed.

Lemma candidate_length (w : State) (i : nat) :
  0 <= _keyLength (this w) ->
  Z.even (_keyLength (this w)) = true ->
  Z.of_nat (String.length (candidate entropy w i)) = _keyLength (this w).
Proof.
  intros Hpos Heven. unfold candidate.
  rewrite toHex_length, length_map, length_seq. unfold keyBytes.
  apply Z.even_spec in Heven as [h Hh]. rewrite Hh in *.
  rewrite Z.mul_comm, Z.quot_mul by lia. lia.
Qed.

Lemma kMaxPossibleLength_value : kMaxPossibleLength = 2147483647.
Proof. reflexivity. Qed.

Lemma kStringMaxLength_value : kStringMaxLength = 536870888.
Proof. reflexivity. Qed.

Lemma drawn_length (w : State) :
  0 <= _keyLength (this w) ->
  2 * Z.of_nat
        (List.length
           (List.map (fun i => entropy (bytesRead w + i)%nat)
                     (List.seq 0 (Z.to_nat (Z.quot (_keyLength (this w)) 2)))))
  = 2 * (Z.quot (_keyLength (this w)) 2).
Proof.
  intros Hpos. rewrite length_map, length_seq.
  rewrite Z2Nat.id; [reflexivity|]. now apply Z.quot_pos.
Qed.

Lemma generateKey_run (w : State) :
  keyLengthAccepted w ->
  generateKey entropy w
  = (Normal (candidate entropy w 0), afterDrawing (keyBytes w) w).
Proof.
  intros [[Hpos Hmax] Hstr].
  unfold generateKey, bind, field, randomBytes_half. cbv beta iota.
  destruct (Z.ltb_spec (_keyLength (this w)) 0); [lia|].
  destruct (Z.ltb_spec (2 * kMaxPossibleLength) (_keyLength (this w))); [lia|].
  cbn [orb]. unfold toString_hex.
  rewrite drawn_length by assumption.
  destruct (Z.ltb_spec kStringMaxLength (2 * Z.quot (_keyLength (this w)) 2));
    [lia|].
  unfold ret, candidate, afterDrawing, keyBytes.
  do 3 f_equal. apply map_ext. intros j. f_equal. lia.
Qed.

(** A size that [crypto.randomBytes] rejects. *)
Lemma generateKey_rejected (w : State) :
  _keyLength (this w) < 0 \/ 2 * kMaxPossibleLength < _keyLength (this w) ->
  generateKey entropy w
  = (Throw (RangeError {| doubled := _keyLength (this w) |}), w).
Proof.
  intros Hout.
  unfold generateKey, bind, field, randomBytes_half. cbv beta iota.
  destruct (Z.ltb_spec (_keyLength (this w)) 0); [reflexivity|].
  destruct (Z.ltb_spec (2 * kMaxPossibleLength) (_keyLength (this w)));
    [reflexivity | lia].
Qed.

(** A size that passes, whose text is longer than the longest string. *)
Lemma generateKey_too_long (w : State) :
  0 <= _keyLength (this w) <= 2 * kMaxPossibleLength ->
  kStringMaxLength < 2 * (Z.quot (_keyLength (this w)) 2) ->
  generateKey entropy w
  = (Throw (ErrStringTooLong (2 * (Z.quot (_keyLength (this w)) 2))),
     afterDrawing (keyBytes w) w).
Proof.
  intros [Hpos Hmax] Hlong.
  unfold generateKey, bind, field, randomBytes_half. cbv beta iota.
  destruct (Z.ltb_spec (_keyLength (this w)) 0); [lia|].
  destruct (Z.ltb_spec (2 * kMaxPossibleLength) (_keyLength (this w))); [lia|].
  cbn [orb]. unfold toString_hex.
  rewrite drawn_length by assumption.
  destruct (Z.ltb_spec kStringMaxLength (2 * Z.quot (_keyLength (this w)) 2));
    [reflexivity | lia].
Qed.

Lemma generateKey_negative (w : State) :
  _keyLength (this w) < 0 ->
  generateKey entropy w
  = (Throw (RangeError {| doubled := _keyLength (this w) |}), w).
Proof. intros Hneg. apply generateKey_rejected. now left. Qed.

Lemma candidate_shift (w : State) (i : nat) :
  candidate entropy (afterDrawing (keyBytes w) w) i
  = candidate entropy w (S i).
Proof.
  unfold candidate, afterDrawing, keyBytes. simpl.
  f_equal. apply map_ext. intros j. f_equal. lia.
Qed.

Lemma afterDrawing_twice (a b : nat) (w : State) :
  afterDrawing b (afterDrawing a w) = afterDrawing (a + b) w.
Proof. unfold afterDrawing. simpl. f_equal. lia. Qed.

(** The retry loop: it returns the first candidate that is not a key of
    the map, or the last one it is allowed to draw. *)
Lemma getUniqueKey_loop_run (retries : nat) : forall w : State,
  keyLengthAccepted w ->
  exists n : nat,
    (n <= retries)%nat /\
    getUniqueKey_loop entropy retries w
    = (Normal (candidate entropy w n), afterDrawing (S n * keyBytes w) w) /\
    (forall i, (i < n)%nat ->
               JsMap.has (candidate entropy w i) (storage w) = true) /\
    (JsMap.has (candidate entropy w n) (storage w) = false \/ n = retries).
Proof.
  induction retries as [|retries IH]; intros w Hpos.
  - exists 0%nat. split; [lia|]. split.
    + cbn [getUniqueKey_loop]. unfold bind at 1. rewrite generateKey_run by assumption.
      unfold storage_has, bind, field, ret. cbv beta iota.
      replace (1 * keyBytes w)%nat with (keyBytes w) by lia.
      unfold negb. destruct (JsMap.has _ _); reflexivity.
    + split; [intros i Hi; lia | now right].
  - destruct (JsMap.has (candidate entropy w 0) (storage w)) eqn:Hhas.
    + destruct (IH (afterDrawing (keyBytes w) w) Hpos)
        as [n [Hle [Hrun [Hbefore Hlast]]]].
      exists (S n). split; [lia|]. split; [|split].
      * cbn [getUniqueKey_loop]. unfold bind at 1. rewrite generateKey_run by assumption.
        unfold storage_has at 1. unfold bind at 1 2.
        unfold field at 1. unfold ret at 1. cbv beta iota.
        change (_storage (this (afterDrawing (keyBytes w) w)))
          with (storage w).
        rewrite Hhas. cbv beta iota. unfold negb. cbv iota.
        rewrite Hrun, candidate_shift, afterDrawing_twice.
        reflexivity.
      * intros [|i] Hi; [exact Hhas|].
        rewrite <- candidate_shift. apply Hbefore. lia.
      * rewrite <- candidate_shift.
        destruct Hlast as [H|H]; [now left | right; lia].
    + exists 0%nat. split; [lia|]. split; [|split].
      * cbn [getUniqueKey_loop]. unfold bind at 1. rewrite generateKey_run by assumption.
        unfold storage_has at 1. unfold bind at 1 2.
        unfold field at 1. unfold ret at 1. cbv beta iota.
        change (_storage (this (afterDrawing (keyBytes w) w)))
          with (storage w).
        rewrite Hhas. cbv beta iota. unfold negb. cbv iota.
        replace (1 * keyBytes w)%nat with (keyBytes w) by lia.
        reflexivity.
      * intros i Hi; lia.
      * now left.
Qed.

(** An attempt that throws ends the loop with that error. *)
Lemma getUniqueKey_loop_throws (retries : nat) (w w1 : State) (e : Exn) :
  generateKey entropy w = (Throw e, w1) ->
  getUniqueKey_loop entropy retries w = (Throw e, w1).
Proof.
  intros Hg.
  destruct retries; cbn [getUniqueKey_loop]; unfold bind at 1;
    now rewrite Hg.
Qed.

Lemma getUniqueKey_loop_negative (retries : nat) (w : State) :
  _keyLength (this w) < 0 ->
  getUniqueKey_loop entropy retries w
  = (Throw (RangeError {| doubled := _keyLength (this w) |}), w).
Proof.
  intros Hneg. now apply getUniqueKey_loop_throws, generateKey_negative.
Qed.

(** Key generation only ever takes random bytes: whether it returns or
    throws, the instance and the clock are as before. *)
Lemma getUniqueKey_loop_only_draws (retries : nat) (w : State) :
  exists n : nat,
    snd (getUniqueKey_loop entropy retries w) = w
    \/ snd (getUniqueKey_loop entropy retries w) = afterDrawing n w.
Proof.
  destruct (Z.lt_ge_cases (_keyLength (this w)) 0) as [Hneg|Hpos].
  { exists 0%nat. left.
    now rewrite (getUniqueKey_loop_throws retries w
                   (generateKey_rejected w (or_introl Hneg))). }
  destruct (Z.lt_ge_cases (2 * kMaxPossibleLength) (_keyLength (this w)))
    as [Hbig|Hmax].
  { exists 0%nat. left.
    now rewrite (getUniqueKey_loop_throws retries w
                   (generateKey_rejected w (or_intror Hbig))). }
  destruct (Z.lt_ge_cases kStringMaxLength
                          (2 * Z.quot (_keyLength (this w)) 2))
    as [Hlong|Hstr].
  - exists (keyBytes w). right.
    now rewrite (getUniqueKey_loop_throws retries w
                   (generateKey_too_long w (conj Hpos Hmax) Hlong)).
  - assert (Hok : keyLengthAccepted w) by (repeat split; assumption).
    destruct (getUniqueKey_loop_run retries Hok) as [n [_ [Hrun _]]].
    exists (S n * keyBytes w)%nat. right. now rewrite Hrun.
Qed.

(** Key generation never writes to the instance. *)
Lemma getUniqueKey_loop_this (retries : nat) (w : State) :
  this (snd (getUniqueKey_loop entropy retries w)) = this w.
Proof.
  destruct (getUniqueKey_loop_only_draws retries w) as [n [H|H]];
    now rewrite H.
Qed.

End KeyGeneration.

(** ** Every reachable state keeps the keys of the map unique *)

Section Reachability.

Variable clock : nat -> Z.
Variable entropy : nat -> Byte.byte.

Lemma perform_wf (c : Call) (w : State) :
  JsMap.wf (storage w) -> JsMap.wf (storage (perform clock entropy c w)).
Proof.
  intros Hwf. destruct c as [key value|key value|key value|key|key| | | |];
    cbn [perform].
  - destruct key; try exact Hwf.
    rewrite add_run by assumption.
    destruct (JsMap.has s (storage w)); [exact Hwf|].
    apply wf_written, wf_afterCapacity, Hwf.
  - destruct key; try exact Hwf.
    rewrite update_run by assumption.
    destruct (JsMap.has s (storage w)); [|exact Hwf].
    apply wf_written, wf_afterCapacity, Hwf.
  - destruct key; try exact Hwf.
    rewrite upsert_run by assumption.
    destruct (JsMap.has s (storage w)).
    + apply wf_written, Hwf.
    + apply wf_written, wf_afterCapacity, Hwf.
  - destruct key; exact Hwf.
  - destruct key; try exact Hwf.
    rewrite delete_run. cbn [snd]. rewrite storage_withStorage.
    now apply JsMapFacts.wf_remove.
  - constructor.
  - exact Hwf.
  - unfold getUniqueKey, storage. now rewrite getUniqueKey_loop_this.
  - unfold intervalFires, bind, field, when. cbv beta iota.
    destruct (_cleanupInterval (this w)); [|exact Hwf].
    rewrite cleanup_run by assumption. cbn [snd].
    rewrite storage_withStorage. now apply wf_survivors.
Qed.

Lemma reachable_wf (cfg : IConfig) (w : State) :
  reachable clock entropy cfg w -> JsMap.wf (storage w).
Proof.
  induction 1 as [|c w Hr IH].
  - constructor.
  - now apply perform_wf.
Qed.

Lemma reachable_performAll (cfg : IConfig) (calls : list Call) :
  forall w, reachable clock entropy cfg w ->
            reachable clock entropy cfg (performAll clock entropy calls w).
Proof.
  induction calls as [|c calls IH]; intros w Hr; simpl; auto.
  apply IH. now constructor.
Qed.

End Reachability.

(** ** The public contract *)

Section Contract.

Variable clock : nat -> Z.

(** C4.  [add] on a key that is already present returns [{success: false}]
    and changes nothing: the state after the call is the state before it,
    so the entry under the key keeps its value, [expireAt] and [updateAt],
    no entry is evicted and the size is the same. *)
Theorem add_existing_key (w : State) (k : string) (value : JsVal) :
  JsMap.has k (storage w) = true ->
  add clock (VString k) value w = (Normal failure, w)
  /\ JsMap.get "success" failure = Some (VBool false)
  /\ JsMap.get k (storage (snd (add clock (VString k) value w)))
     = JsMap.get k (storage w)
  /\ sizeOf (snd (add clock (VString k) value w)) = sizeOf w.
Proof.
  intros Hhas.
  assert (Hrun : add clock (VString k) value w = (Normal failure, w)).
  { unfold add, validateKey, storage_has, field.
    unfold bind at 1 2 3. unfold ret at 1 2. cbv beta iota.
    change (_storage (this w)) with (storage w).
    now rewrite Hhas. }
  rewrite Hrun. repeat split.
Qed.

(** C5.  [update] on a key that is not present returns [{success: false}],
    creates no entry for it and changes nothing. *)
Theorem update_absent_key (w : State) (k : string) (value : JsVal) :
  JsMap.has k (storage w) = false ->
  update clock (VString k) value w = (Normal failure, w)
  /\ JsMap.get "success" failure = Some (VBool false)
  /\ JsMap.has k (storage (snd (update clock (VString k) value w))) = false.
Proof.
  intros Hhas.
  assert (Hrun : update clock (VString k) value w = (Normal failure, w)).
  { unfold update, validateKey, storage_has, field.
    unfold bind at 1 2 3. unfold ret at 1 2. cbv beta iota.
    change (_storage (this w)) with (storage w).
    now rewrite Hhas. }
  rewrite Hrun. repeat split. exact Hhas.
Qed.

(** C3, as amended.  [add] of a key that is not present stores the key
    and returns the result object, whose [expireAt] is
    [new Date(now + expireMs)] for the reading [now] of the clock taken at
    the insertion (that very instant when it is in the range of dates).
    The [success] of the result is [true] when the payload has no own
    property [success].  When the map holds fewer than [maxItems] entries
    (or has no bound), the size grows by exactly one and the insertion is
    the only reading of the clock. *)
Theorem add_new_key_succeeds (w : State) (k : string) (value : JsVal) :
  JsMap.has k (storage w) = false ->
  exists (r : TStorageResult) (w' : State),
    add clock (VString k) value w = (Normal r, w')
    /\ (carries "success" value = false ->
        JsMap.get "success" r = Some (VBool true))
    /\ (let now := clock (Nat.pred (nowReads w')) in
        JsMap.get "expireAt" r
        = Some (VDate (new_Date (now + _expireMs (this w))))
        /\ (Z.abs (now + _expireMs (this w)) <= maxTimeValue ->
            JsMap.get "expireAt" r
            = Some (VDate (TimeValue (now + _expireMs (this w))))))
    /\ JsMap.has k (storage w') = true
    /\ (reaches (sizeOf w) (_maxItems (this w)) = false ->
        sizeOf w' = S (sizeOf w) /\ nowReads w' = S (nowReads w)).
Proof.
  intros Hhas.
  destruct (handleMaxCapacity_shape clock w) as [m Hcap].
  set (w1 := if reaches (sizeOf w) (_maxItems (this w))
             then withStorage m (afterReading w) else w) in Hcap.
  assert (He : _expireMs (this w1) = _expireMs (this w)).
  { subst w1. now destruct (reaches _ _). }
  exists (stored k (dataAt clock value w1)), (written clock k value w1).
  assert (Hexp : JsMap.get "expireAt" (stored k (dataAt clock value w1))
                 = Some (VDate (new_Date (clock (nowReads w1)
                                          + _expireMs (this w))))).
  { rewrite stored_expireAt. unfold dataAt, stamped. cbn [expireAt].
    now rewrite He. }
  split; [|split; [|split; [|split]]].
  - unfold add, validateKey, storage_has, field.
    unfold bind at 1 2 3. unfold ret at 1 2. cbv beta iota.
    change (_storage (this w)) with (storage w).
    rewrite Hhas. unfold bind at 1. rewrite Hcap.
    apply write_run.
  - intros Hplain. apply stored_success. now apply stamped_no_success.
  - change (Nat.pred (nowReads (written clock k value w1)))
      with (nowReads w1).
    cbv zeta. split; [exact Hexp|].
    intros Hrange. rewrite Hexp. unfold new_Date.
    now rewrite TimeClip_in_range.
  - unfold written. rewrite storage_withStorage.
    apply JsMapFacts.has_set_eq.
  - intros Hbelow. subst w1. rewrite Hbelow. split; [|reflexivity].
    unfold sizeOf, written. rewrite storage_withStorage.
    now apply JsMapFacts.size_set_absent.
Qed.

(** C7.  [delete] returns [true] exactly when the key was present.  In that
    case the size drops by one and the key is absent afterwards; otherwise
    the state is unchanged. *)
Theorem delete_present_or_not (w : State) (k : string) :
  JsMap.wf (storage w) ->
  exists w' : State,
    delete (VString k) w = (Normal (JsMap.has k (storage w)), w')
    /\ (JsMap.has k (storage w) = true ->
        S (sizeOf w') = sizeOf w /\ JsMap.has k (storage w') = false)
    /\ (JsMap.has k (storage w) = false -> w' = w).
Proof.
  intros Hwf. exists (withStorage (JsMap.remove k (storage w)) w).
  split; [apply delete_run|]. split.
  - intros Hhas. unfold sizeOf. rewrite storage_withStorage. split.
    + now apply JsMapFacts.size_remove_present.
    + now apply JsMapFacts.has_remove_eq.
  - intros Hhas. rewrite JsMapFacts.remove_absent by assumption.
    apply withStorage_same.
Qed.


End Contract.

Section KeyContract.

Variable entropy : nat -> Byte.byte.

(** C8, as amended.  With an even key length from 0 up to the length of
    the longest string the runtime can build, [getUniqueKey] returns a
    string of exactly [keyLength] hexadecimal characters and leaves the
    instance as it was.  The string is the first
    of at most 1 + 15 generated candidates that is not a key of the map;
    when all sixteen are keys of the map it is the sixteenth, returned as
    an ordinary result. *)
Theorem getUniqueKey_fresh_or_exhausted (w : State) :
  Z.even (_keyLength (this w)) = true ->
  0 <= _keyLength (this w) <= kStringMaxLength ->
  exists (n : nat) (key : string) (w' : State),
    getUniqueKey entropy w = (Normal key, w')
    /\ this w' = this w
    /\ Z.of_nat (String.length key) = _keyLength (this w)
    /\ allChars isHexDigit key = true
    /\ (n <= maxRetries)%nat
    /\ key = candidate entropy w n
    /\ (forall i, (i < n)%nat ->
                  JsMap.has (candidate entropy w i) (storage w) = true)
    /\ (JsMap.has key (storage w') = false
        \/ (n = maxRetries
            /\ forall i, (i <= maxRetries)%nat ->
                         JsMap.has (candidate entropy w i) (storage w) = true)).
Proof.
  intros Heven [Hpos Hmax].
  assert (Hok : keyLengthAccepted w).
  { unfold keyLengthAccepted.
    rewrite kMaxPossibleLength_value. rewrite kStringMaxLength_value in *.
    rewrite Z.quot_div_nonneg by lia.
    pose proof (Z.mul_div_le (_keyLength (this w)) 2). lia. }
  destruct (getUniqueKey_loop_run entropy maxRetries Hok)
    as [n [Hle [Hrun [Hbefore Hlast]]]].
  exists n, (candidate entropy w n), (afterDrawing (S n * keyBytes w) w).
  split; [exact Hrun|]. split; [reflexivity|].
  split; [now apply candidate_length|].
  split; [apply toHex_allHex|].
  split; [exact Hle|]. split; [reflexivity|]. split; [exact Hbefore|].
  change (storage (afterDrawing (S n * keyBytes w) w)) with (storage w).
  destruct (JsMap.has (candidate entropy w n) (storage w)) eqn:Hn;
    [right | now left].
  destruct Hlast as [Hfalse|Hn']; [discriminate|].
  split; [exact Hn'|]. intros i Hi.
  destruct (Nat.eq_dec i n) as [->|Hne]; [exact Hn|].
  apply Hbefore. lia.
Qed.

End KeyContract.

(** ** The code at concrete inputs *)

Section Scenarios.

(** C1.  A store with [expireMs = 1000] whose timer fires at time 100 and
    at time 5000.  The entry [x], due to expire at 1000, is deleted by the
    sweep at time 100; the entry [y], which expired at 1200, is still there
    after the sweep at time 5000.  The sweep deletes the entries whose
    [expireAt] is after the current time and keeps those whose [expireAt]
    is at or before it. *)
Theorem sweep_deletes_live_keeps_expired :
  let clock := readings [0; 100; 200; 5000] in
  let w0 := new_StorageManager (config None (Some 1000) None (Some 100)) in
  let w1 := perform clock zeroBytes (CallAdd (VString "x") (VNumber 1)) w0 in
  let w2 := perform clock zeroBytes IntervalFires w1 in
  let w3 := perform clock zeroBytes (CallAdd (VString "y") (VNumber 2)) w2 in
  let w4 := perform clock zeroBytes IntervalFires w3 in
  option_map expireAt (JsMap.get "x" (storage w1)) = Some (TimeValue 1000)
  /\ JsMap.has "x" (storage w2) = false
  /\ option_map expireAt (JsMap.get "y" (storage w3)) = Some (TimeValue 1200)
  /\ JsMap.has "y" (storage w4) = true.
Proof. vm_compute. repeat split. Qed.

(** C2.  With [maxItems = 2] and the default [expireMs], after
    [add('a', 1)], [add('b', 2)], [add('c', 3)] the map holds [c] alone:
    the sweep inside the capacity policy deleted both [a] and [b].  And
    with [maxItems = 1], when the only entry has expired, the map is still
    full after the sweep and the policy deletes nothing. *)
Theorem capacity_policy_on_full_store :
  (let clock := readings [1000; 1001; 1002; 1003] in
   let w0 := new_StorageManager (config (Some 2) None None None) in
   let w3 := performAll clock zeroBytes
               [CallAdd (VString "a") (VNumber 1);
                CallAdd (VString "b") (VNumber 2);
                CallAdd (VString "c") (VNumber 3)] w0 in
   JsMap.keys (storage w3) = ["c"] /\ sizeOf w3 = 1%nat)
  /\
  (let clock := readings [0; 2000] in
   let w0 := new_StorageManager (config (Some 1) (Some 1000) None None) in
   let w1 := perform clock zeroBytes (CallAdd (VString "a") (VNumber 1)) w0 in
   let w1' := snd (handleMaxCapacity clock w1) in
   reaches (sizeOf w1) (_maxItems (this w1)) = true
   /\ reaches (sizeOf w1') (_maxItems (this w1')) = true
   /\ storage w1' = storage w1).
Proof. vm_compute. repeat split. Qed.

(** C6.  [upsert] of the payload [{success: false}] under a new key stores
    the entry and returns an object whose [success] is [false]: the
    payload's own property overwrites the flag. *)
Theorem upsert_payload_overwrites_success :
  let clock := readings [0] in
  let w0 := new_StorageManager (config None None None None) in
  let value := VObject [("success", VBool false)] in
  exists (r : TStorageResult) (w1 : State),
    upsert clock (VString "k") value w0 = (Normal r, w1)
    /\ JsMap.get "success" r = Some (VBool false)
    /\ JsMap.has "k" (storage w1) = true.
Proof. vm_compute. eexists. eexists. repeat split. Qed.

(** C10.  With [maxItems = 1] and [expireMs = 1000]: [add('a', 1)] at time
    0 and [add('b', 2)] at time 2000 both succeed and leave two entries in
    the map. *)
Theorem size_exceeds_maxItems :
  let clock := readings [0; 2000; 2001] in
  let cfg := config (Some 1) (Some 1000) None None in
  let w2 := performAll clock zeroBytes
              [CallAdd (VString "a") (VNumber 1);
               CallAdd (VString "b") (VNumber 2)]
              (new_StorageManager cfg) in
  reachable clock zeroBytes cfg w2
  /\ _maxItems (this w2) = Finite 1
  /\ JsMap.keys (storage w2) = ["a"; "b"]
  /\ sizeOf w2 = 2%nat.
Proof.
  intros clock cfg w2. split.
  - apply reachable_performAll. constructor.
  - vm_compute. repeat split.
Qed.

(** C3, as stated, fails in two ways.  When the map is full: with
    [maxItems = 1] and the entry [a] in place, [add('c', 3)] of the absent
    key [c] succeeds and the size is 1 as before.  And when the payload has
    its own [success]: [add('k', {success: false})] of the absent key [k]
    stores the key and returns an object whose [success] is [false]. *)
Lemma add_new_key_clauses_fail :
  (let clock := readings [0; 1; 2] in
   let w0 := new_StorageManager (config (Some 1) None None None) in
   let w1 := perform clock zeroBytes (CallAdd (VString "a") (VNumber 1)) w0 in
   let w2 := perform clock zeroBytes (CallAdd (VString "c") (VNumber 3)) w1 in
   JsMap.has "c" (storage w1) = false
   /\ JsMap.has "c" (storage w2) = true
   /\ sizeOf w2 <> S (sizeOf w1))
  /\
  (let value := VObject [("success", VBool false)] in
   exists (r : TStorageResult) (w1 : State),
     JsMap.has "k" (storage emptyStore) = false
     /\ add (readings [0]) (VString "k") value emptyStore = (Normal r, w1)
     /\ JsMap.has "k" (storage w1) = true
     /\ JsMap.get "success" r = Some (VBool false)).
Proof.
  split.
  - vm_compute. repeat split. discriminate.
  - vm_compute. eexists. eexists. repeat split.
Qed.

(** C8, as stated, fails for an even key length that is negative or too
    large.  With [keyLength = -2] and with [keyLength = 2^32],
    [getUniqueKey] throws the RangeError of [crypto.randomBytes]; with
    [keyLength = 2^29 - 22] the bytes are drawn and their text is two
    characters longer than the longest string.  No string is returned. *)
Lemma getUniqueKey_keyLength_out_of_range :
  (let w0 := new_StorageManager (config None None (Some (-2)) None) in
   Z.even (_keyLength (this w0)) = true
   /\ getUniqueKey zeroBytes w0
      = (Throw (RangeError {| doubled := -2 |}), w0))
  /\ (let w0 := new_StorageManager (config None None (Some (2 ^ 32)) None) in
      Z.even (_keyLength (this w0)) = true
      /\ getUniqueKey zeroBytes w0
         = (Throw (RangeError {| doubled := 2 ^ 32 |}), w0))
  /\ (let w0 := new_StorageManager
                  (config None None (Some (kStringMaxLength + 2)) None) in
      Z.even (_keyLength (this w0)) = true
      /\ getUniqueKey zeroBytes w0
         = (Throw (ErrStringTooLong (kStringMaxLength + 2)),
            afterDrawing (keyBytes w0) w0)).
Proof.
  split; [|split].
  - split; [reflexivity|].
    apply getUniqueKey_loop_throws, generateKey_rejected. left. reflexivity.
  - split; [reflexivity|].
    apply getUniqueKey_loop_throws, generateKey_rejected. right. reflexivity.
  - split; [reflexivity|].
    apply getUniqueKey_loop_throws.
    apply (generateKey_too_long zeroBytes
             (new_StorageManager
                (config None None (Some (kStringMaxLength + 2)) None))).
    + split; discriminate.
    + reflexivity.
Qed.


End Scenarios.

(** ** The contract at concrete inputs *)

(** [add('a', 9)] on the store that holds [a]. *)
Lemma add_existing_key_witness :
  JsMap.has "a" (storage storeWithA) = true
  /\ (add (readings [7]) (VString "a") (VNumber 9) storeWithA
      = (Normal failure, storeWithA)
      /\ JsMap.get "success" failure = Some (VBool false)
      /\ JsMap.get "a"
           (storage (snd (add (readings [7]) (VString "a") (VNumber 9)
                              storeWithA)))
         = JsMap.get "a" (storage storeWithA)
      /\ sizeOf (snd (add (readings [7]) (VString "a") (VNumber 9) storeWithA))
         = sizeOf storeWithA).
Proof.
  split; [reflexivity|].
  apply (add_existing_key (readings [7]) storeWithA "a" (VNumber 9)).
  reflexivity.
Defined.

(** [update('b', 9)] on the store that holds [a] alone. *)
Lemma update_absent_key_witness :
  JsMap.has "b" (storage storeWithA) = false
  /\ (update (readings [7]) (VString "b") (VNumber 9) storeWithA
      = (Normal failure, storeWithA)
      /\ JsMap.get "success" failure = Some (VBool false)
      /\ JsMap.has "b"
           (storage (snd (update (readings [7]) (VString "b") (VNumber 9)
                                 storeWithA)))
         = false).
Proof.
  split; [reflexivity|].
  apply (update_absent_key (readings [7]) storeWithA "b" (VNumber 9)).
  reflexivity.
Defined.

(** [add('b', {n: 9})] at time 7 on the unbounded store that holds [a]. *)
Lemma add_new_key_succeeds_witness :
  JsMap.has "b" (storage storeWithA) = false
  /\ exists (r : TStorageResult) (w' : State),
      add (readings [0; 7]) (VString "b") (VObject [("n", VNumber 9)])
          storeWithA
      = (Normal r, w')
      /\ (carries "success" (VObject [("n", VNumber 9)]) = false ->
          JsMap.get "success" r = Some (VBool true))
      /\ (let now := readings [0; 7] (Nat.pred (nowReads w')) in
          JsMap.get "expireAt" r
          = Some (VDate (new_Date (now + _expireMs (this storeWithA))))
          /\ (Z.abs (now + _expireMs (this storeWithA)) <= maxTimeValue ->
              JsMap.get "expireAt" r
              = Some (VDate (TimeValue (now + _expireMs (this storeWithA))))))
      /\ JsMap.has "b" (storage w') = true
      /\ (reaches (sizeOf storeWithA) (_maxItems (this storeWithA)) = false ->
          sizeOf w' = S (sizeOf storeWithA)
          /\ nowReads w' = S (nowReads storeWithA)).
Proof.
  split; [reflexivity|].
  apply (add_new_key_succeeds (readings [0; 7]) storeWithA "b"
           (VObject [("n", VNumber 9)])).
  reflexivity.
Defined.

(** [delete('a')] on the store that holds [a]. *)
Lemma delete_present_or_not_witness :
  JsMap.wf (storage storeWithA)
  /\ exists w' : State,
      delete (VString "a") storeWithA
      = (Normal (JsMap.has "a" (storage storeWithA)), w')
      /\ (JsMap.has "a" (storage storeWithA) = true ->
          S (sizeOf w') = sizeOf storeWithA
          /\ JsMap.has "a" (storage w') = false)
      /\ (JsMap.has "a" (storage storeWithA) = false -> w' = storeWithA).
Proof.
  assert (Hwf : JsMap.wf (storage storeWithA)).
  { vm_compute. constructor; [intros [] | constructor]. }
  split; [exact Hwf|].
  apply (delete_present_or_not storeWithA "a" Hwf).
Defined.

(** [getUniqueKey()] with the default key length of 8. *)
Lemma getUniqueKey_fresh_or_exhausted_witness :
  (Z.even (_keyLength (this storeWithA)) = true
   /\ 0 <= _keyLength (this storeWithA) <= kStringMaxLength)
  /\ exists (n : nat) (key : string) (w' : State),
      getUniqueKey (cycling [Byte.x3c; Byte.xa7]) storeWithA = (Normal key, w')
      /\ this w' = this storeWithA
      /\ Z.of_nat (String.length key) = _keyLength (this storeWithA)
      /\ allChars isHexDigit key = true
      /\ (n <= maxRetries)%nat
      /\ key = candidate (cycling [Byte.x3c; Byte.xa7]) storeWithA n
      /\ (forall i, (i < n)%nat ->
            JsMap.has (candidate (cycling [Byte.x3c; Byte.xa7]) storeWithA i)
                      (storage storeWithA) = true)
      /\ (JsMap.has key (storage w') = false
          \/ (n = maxRetries
              /\ forall i, (i <= maxRetries)%nat ->
                   JsMap.has (candidate (cycling [Byte.x3c; Byte.xa7])
                                        storeWithA i)
                             (storage storeWithA) = true)).
Proof.
  assert (Hrange : 0 <= _keyLength (this storeWithA) <= kStringMaxLength)
    by (split; discriminate).
  split; [split; [reflexivity | exact Hrange]|].
  apply (getUniqueKey_fresh_or_exhausted (cycling [Byte.x3c; Byte.xa7])
           storeWithA); [reflexivity | exact Hrange].
Defined.


(** * Further properties of the code *)

(** ** More facts about insertion-ordered maps *)

Section MoreMapFacts.

Variable V : Type.
Implicit Types (m dst src : JsMap.t V) (k : string) (v : V).

Lemma assign_snoc dst src k v :
  JsMap.assign dst (src ++ [(k, v)])%list = JsMap.set k v (JsMap.assign dst src).
Proof. now rewrite assign_app. Qed.

(** Spreading [src] over [dst]: the last definition in [src] wins, and the
    properties [src] does not define are those of [dst]. *)
Lemma get_assign k src : forall dst,
  JsMap.get k (JsMap.assign dst src)
  = match JsMap.get k (JsMap.assign JsMap.empty src) with
    | Some v => Some v
    | None => JsMap.get k dst
    end.
Proof.
  induction src as [|[k' v'] src IH] using rev_ind; intros dst.
  - reflexivity.
  - rewrite !assign_snoc.
    destruct (String.eqb_spec k' k) as [->|Hne].
    + now rewrite !JsMapFacts.get_set_eq.
    + rewrite !JsMapFacts.get_set_neq by assumption. apply IH.
Qed.

Lemma wf_assign src : forall dst, JsMap.wf dst -> JsMap.wf (JsMap.assign dst src).
Proof.
  induction src as [|[k v] src IH]; intros dst Hwf; [exact Hwf|].
  unfold JsMap.assign in *. simpl. apply IH. now apply JsMapFacts.wf_set.
Qed.

Lemma assign_empty_wf m : JsMap.wf m -> JsMap.assign JsMap.empty m = m.
Proof.
  induction m as [|[k v] m IH] using rev_ind; intros Hwf; [reflexivity|].
  unfold JsMap.wf, JsMap.keys in Hwf. rewrite map_app in Hwf. simpl in Hwf.
  rewrite assign_snoc, IH by (eapply NoDup_app_remove_r; exact Hwf).
  apply JsMapFacts.set_absent.
  destruct (JsMap.has k m) eqn:Hhas; [|reflexivity].
  apply JsMapFacts.has_In in Hhas.
  apply NoDup_remove_2 in Hwf. rewrite app_nil_r in Hwf. contradiction.
Qed.

Lemma remove_set_absent k v m :
  JsMap.has k m = false -> JsMap.remove k (JsMap.set k v m) = m.
Proof.
  induction m as [|[k' v'] m IH]; simpl; intros H.
  - now rewrite String.eqb_refl.
  - rewrite JsMapFacts.has_cons in H. apply orb_false_iff in H as [E H].
    rewrite E. simpl. rewrite E. f_equal. auto.
Qed.

Lemma In_set k v m (kv : string * V) :
  In kv (JsMap.set k v m) -> In kv m \/ kv = (k, v).
Proof.
  induction m as [|[k' v'] m IH]; simpl.
  - intros [H|[]]; auto.
  - destruct (String.eqb_spec k k') as [->|Hne]; simpl.
    + intros [H|H]; auto.
    + intros [H|H]; auto. destruct (IH H); auto.
Qed.

Lemma In_remove k m (kv : string * V) : In kv (JsMap.remove k m) -> In kv m.
Proof.
  induction m as [|[k' v'] m IH]; simpl; auto.
  destruct (String.eqb k k'); simpl; intuition.
Qed.

Lemma size_filter_le (p : string * V -> bool) m :
  (JsMap.size (List.filter p m) <= JsMap.size m)%nat.
Proof. apply filter_length_le. Qed.

(** A filter that drops the entry under a key of the map makes the map
    strictly smaller. *)
Lemma size_filter_lt (p : string * V -> bool) k m :
  JsMap.has k m = true -> JsMap.has k (List.filter p m) = false ->
  (JsMap.size (List.filter p m) < JsMap.size m)%nat.
Proof.
  unfold JsMap.size.
  induction m as [|[k' v'] m IH]; simpl; intros Hin Hout; [discriminate|].
  rewrite JsMapFacts.has_cons in Hin.
  destruct (p (k', v')) eqn:Hp; simpl.
  - rewrite JsMapFacts.has_cons in Hout.
    apply orb_false_iff in Hout as [E Hout]. rewrite E in Hin. simpl in Hin.
    apply -> Nat.succ_lt_mono. now apply IH.
  - pose proof (filter_length_le p m). lia.
Qed.

End MoreMapFacts.

(** ** What every method leaves alone *)

Section Frame.

Variable clock : nat -> Z.
Variable entropy : nat -> Byte.byte.

Lemma evolves_refl (w : State) : evolves w w.
Proof. unfold evolves. repeat split; auto. Qed.

Lemma evolves_trans (w1 w2 w3 : State) :
  evolves w1 w2 -> evolves w2 w3 -> evolves w1 w3.
Proof.
  unfold evolves.
  intros [Hc [Ht [Ho [Hn Hb]]]] [Hc' [Ht' [Ho' [Hn' Hb']]]].
  repeat split; try congruence; try lia. auto.
Qed.

Lemma steady_ret {A} (a : A) : steady (ret a).
Proof. intros w. apply evolves_refl. Qed.

Lemma steady_throw {A} (e : Exn) : steady (@throw A e).
Proof. intros w. apply evolves_refl. Qed.

Lemma steady_field {A} (f : StorageManager -> A) : steady (field f).
Proof. intros w. apply evolves_refl. Qed.

Lemma steady_store (m : JsMap.t TStorageValue) : steady (store m).
Proof. intros w. unfold evolves. simpl. repeat split; auto. Qed.

Lemma steady_Date_now : steady (Date_now clock).
Proof. intros w. unfold evolves. simpl. repeat split; auto. Qed.

Lemma steady_randomBytes_half (n : Z) : steady (randomBytes_half entropy n).
Proof.
  intros w. unfold randomBytes_half.
  destruct ((n <? 0) || (2 * kMaxPossibleLength <? n));
    [apply evolves_refl|].
  unfold evolves. cbn [snd this nowReads bytesRead console].
  repeat split; auto. lia.
Qed.

Lemma steady_toString_hex (bytes : list Byte.byte) :
  steady (toString_hex bytes).
Proof.
  unfold toString_hex.
  destruct (kStringMaxLength <? _); [apply steady_throw | apply steady_ret].
Qed.

Lemma steady_bind {A B} (c : M A) (k : A -> M B) :
  steady c -> (forall a, steady (k a)) -> steady (bind c k).
Proof.
  intros Hc Hk w. unfold bind. specialize (Hc w).
  destruct (c w) as [[a|e] w1]; simpl in *; [|exact Hc].
  eapply evolves_trans; [exact Hc | apply Hk].
Qed.

Lemma steady_when (b : bool) (c : M unit) : steady c -> steady (when b c).
Proof. intros Hc. destruct b; [exact Hc | apply steady_ret]. Qed.

Lemma steady_stopCleanup : steady stopCleanup.
Proof.
  intros w. unfold evolves. simpl. repeat split; auto. discriminate.
Qed.

Ltac steady_step :=
  first [ apply steady_bind; [|intros ?]
        | apply steady_when
        | apply steady_ret
        | apply steady_throw
        | apply steady_field
        | apply steady_store
        | apply steady_Date_now
        | apply steady_randomBytes_half
        | apply steady_toString_hex ].

Lemma steady_cleanup : steady (cleanup clock).
Proof. unfold cleanup. repeat steady_step. Qed.

Lemma steady_lruKey : steady lruKey.
Proof. unfold lruKey. repeat steady_step. Qed.

Lemma steady_buildData (value : JsVal) : steady (buildData clock value).
Proof.
  unfold buildData, expireMs.
  apply steady_bind; [apply steady_Date_now|]. intros now.
  apply steady_bind; [apply steady_field|]. intros e.
  destruct (spreadable value); apply steady_ret.
Qed.

Lemma steady_validateKey (key : JsVal) : steady (validateKey key).
Proof. destruct key; first [apply steady_ret | apply steady_throw]. Qed.

Lemma steady_storage_delete (k : option string) : steady (storage_delete k).
Proof. destruct k; unfold storage_delete; repeat steady_step. Qed.

Lemma steady_handleMaxCapacity : steady (handleMaxCapacity clock).
Proof.
  unfold handleMaxCapacity, size, maxItems.
  repeat first [ apply steady_cleanup | apply steady_lruKey
               | apply steady_storage_delete | steady_step ].
Qed.

Lemma steady_write (k : string) (value : JsVal) :
  steady (bind (buildData clock value)
               (fun data => bind (storage_set k data)
                                 (fun _ => ret (stored k data)))).
Proof.
  apply steady_bind; [apply steady_buildData|]. intros data.
  unfold storage_set. repeat steady_step.
Qed.

Lemma steady_add (key value : JsVal) : steady (add clock key value).
Proof.
  unfold add, storage_has.
  apply steady_bind; [apply steady_validateKey|]. intros k.
  apply steady_bind; [repeat steady_step|]. intros present.
  destruct present; [apply steady_ret|].
  apply steady_bind; [apply steady_handleMaxCapacity|]. intros _.
  apply steady_write.
Qed.

Lemma steady_update (key value : JsVal) : steady (update clock key value).
Proof.
  unfold update, storage_has.
  apply steady_bind; [apply steady_validateKey|]. intros k.
  apply steady_bind; [repeat steady_step|]. intros present.
  destruct present; [|apply steady_ret].
  apply steady_bind; [apply steady_handleMaxCapacity|]. intros _.
  apply steady_write.
Qed.

Lemma steady_upsert (key value : JsVal) : steady (upsert clock key value).
Proof.
  unfold upsert, storage_has.
  apply steady_bind; [apply steady_validateKey|]. intros k.
  apply steady_bind; [repeat steady_step|]. intros present.
  apply steady_bind;
    [apply steady_when, steady_handleMaxCapacity|]. intros _.
  apply steady_write.
Qed.

Lemma steady_get (key : JsVal) : steady (get key).
Proof.
  unfold get. apply steady_bind; [apply steady_validateKey|]. intros k.
  repeat steady_step.
Qed.

Lemma steady_delete (key : JsVal) : steady (delete key).
Proof.
  unfold delete. apply steady_bind; [apply steady_validateKey|]. intros k.
  apply steady_storage_delete.
Qed.

Lemma steady_generateKey : steady (generateKey entropy).
Proof. unfold generateKey. repeat steady_step. Qed.

Lemma steady_getUniqueKey_loop (retries : nat) :
  steady (getUniqueKey_loop entropy retries).
Proof.
  induction retries as [|retries IH]; cbn [getUniqueKey_loop];
    (apply steady_bind; [apply steady_generateKey|]; intros key;
     unfold storage_has;
     apply steady_bind; [repeat steady_step|]; intros present;
     destruct present; cbn [negb]; first [apply steady_ret | exact IH]).
Qed.

Lemma steady_intervalFires : steady (intervalFires clock).
Proof.
  unfold intervalFires. apply steady_bind; [apply steady_field|].
  intros armed. apply steady_when, steady_cleanup.
Qed.

Lemma perform_evolves (c : Call) (w : State) :
  evolves w (perform clock entropy c w).
Proof.
  destruct c; cbn [perform].
  - apply steady_add.
  - apply steady_update.
  - apply steady_upsert.
  - apply steady_get.
  - apply steady_delete.
  - apply steady_store.
  - apply steady_stopCleanup.
  - apply steady_getUniqueKey_loop.
  - apply steady_intervalFires.
Qed.

Lemma performAll_evolves (calls : list Call) : forall w : State,
  evolves w (performAll clock entropy calls w).
Proof.
  induction calls as [|c calls IH]; intros w; simpl.
  - apply evolves_refl.
  - eapply evolves_trans; [apply perform_evolves | apply IH].
Qed.

End Frame.

(** ** Sweep and capacity policy *)

Section SweepAndCapacity.

Variable clock : nat -> Z.

(** X1.  One run of [cleanup] reads the clock once and deletes exactly the
    entries whose [expireAt] compares greater than that reading: a key maps
    afterwards to what it mapped to before, unless that comparison holds,
    and then it is gone.  The sweep adds nothing and never grows the map. *)
Theorem cleanup_deletes_exactly_later (w : State) :
  JsMap.wf (storage w) ->
  let currentTime := new_Date (clock (nowReads w)) in
  let w' := snd (cleanup clock w) in
  nowReads w' = S (nowReads w)
  /\ (forall k : string,
        JsMap.get k (storage w')
        = match JsMap.get k (storage w) with
          | Some d => if JsDate.gt (expireAt d) currentTime then None else Some d
          | None => None
          end)
  /\ (sizeOf w' <= sizeOf w)%nat.
Proof.
  intros Hwf currentTime w'. split; [|split].
  - subst w'. now rewrite cleanup_run.
  - intros k. apply cleanup_get. exact Hwf.
  - subst w'. rewrite cleanup_run by assumption. cbn [snd].
    unfold sizeOf. rewrite storage_withStorage. apply size_filter_le.
Qed.

(** X2.  [lruKey] returns [undefined] in every state, whatever the map
    holds: no [expireAt] compares less than its starting bound. *)
Theorem lruKey_returns_undefined (w : State) : lruKey w = (Normal None, w).
Proof.
  unfold lruKey, bind, field, ret. cbv beta iota.
  rewrite lruKeyBound_invalid.
  generalize (_storage (this w)). intros entries.
  enough (H : List.fold_left
                (fun (acc : option string * Date) (kd : string * TStorageValue) =>
                   let (key, data) := kd in
                   if JsDate.lt (expireAt data) (snd acc)
                   then (Some key, expireAt data)
                   else acc)
                entries (None, InvalidDate) = (None, InvalidDate))
    by now rewrite H.
  induction entries as [|[k d] entries IH]; cbn [List.fold_left snd]; auto.
  now rewrite lt_InvalidDate_r.
Qed.

(** X3.  [handleMaxCapacity] does nothing at all while the size is below
    [maxItems].  When it does run, every entry it leaves was there before,
    unchanged, and every entry it removes has an [expireAt] that compares
    greater than the current time: an entry that has expired is never
    removed by the policy. *)
Theorem handleMaxCapacity_removes_only_later (w : State) :
  JsMap.wf (storage w) ->
  let w' := snd (handleMaxCapacity clock w) in
  (reaches (sizeOf w) (_maxItems (this w)) = false -> w' = w)
  /\ (forall k d, JsMap.get k (storage w') = Some d ->
                  JsMap.get k (storage w) = Some d)
  /\ (forall k d, JsMap.get k (storage w) = Some d ->
                  JsMap.get k (storage w') = None ->
                  reaches (sizeOf w) (_maxItems (this w)) = true
                  /\ JsDate.gt (expireAt d) (new_Date (clock (nowReads w)))
                     = true).
Proof.
  intros Hwf w'. subst w'. rewrite handleMaxCapacity_run by assumption.
  cbn [snd].
  destruct (reaches (sizeOf w) (_maxItems (this w))) eqn:Hr.
  - rewrite storage_withStorage. unfold survivors.
    split; [discriminate|]. split.
    + intros k d. rewrite JsMapFacts.get_filter by assumption.
      destruct (JsMap.get k (storage w)) as [d'|]; [|discriminate].
      cbn [snd]. destruct (JsDate.gt _ _); cbn [negb]; congruence.
    + intros k d Hget. rewrite JsMapFacts.get_filter by assumption.
      rewrite Hget. cbn [snd].
      destruct (JsDate.gt _ _); cbn [negb]; [auto | discriminate].
  - split; [reflexivity|]. split; [auto|]. congruence.
Qed.

(** X4.  [add] of a new key into a full map: the call succeeds, and besides
    the new key the map then holds only entries that were there before and
    whose [expireAt] does not compare greater than the current time.  Every
    entry that had not expired yet is gone. *)
Theorem add_on_full_store_drops_live_entries
        (w : State) (k : string) (value : JsVal) :
  JsMap.wf (storage w) ->
  JsMap.has k (storage w) = false ->
  reaches (sizeOf w) (_maxItems (this w)) = true ->
  let currentTime := new_Date (clock (nowReads w)) in
  let w' := snd (add clock (VString k) value w) in
  JsMap.has k (storage w') = true
  /\ (forall k' d', k' <> k ->
         JsMap.get k' (storage w') = Some d' ->
         JsMap.get k' (storage w) = Some d'
         /\ JsDate.gt (expireAt d') currentTime = false)
  /\ (forall k' d', JsMap.get k' (storage w) = Some d' ->
         JsDate.gt (expireAt d') currentTime = true ->
         JsMap.has k' (storage w') = false).
Proof.
  intros Hwf Habsent Hfull currentTime w'. subst w'.
  rewrite add_run by assumption. rewrite Habsent. cbn [snd].
  unfold written, afterCapacity. rewrite Hfull.
  rewrite !storage_withStorage. unfold survivors.
  split; [apply JsMapFacts.has_set_eq|]. split.
  - intros k' d' Hne.
    rewrite JsMapFacts.get_set_neq by congruence.
    rewrite JsMapFacts.get_filter by assumption.
    destruct (JsMap.get k' (storage w)) as [d|]; [|discriminate].
    cbn [snd]. fold currentTime.
    destruct (JsDate.gt (expireAt d) currentTime) eqn:Hgt; cbn [negb];
      [discriminate|].
    intros H. inversion H; subst. auto.
  - intros k' d' Hget Hgt.
    assert (Hne : k <> k').
    { intros ->. apply JsMapFacts.has_false_get in Habsent. congruence. }
    apply JsMapFacts.has_false_get.
    rewrite JsMapFacts.get_set_neq by assumption.
    rewrite JsMapFacts.get_filter by assumption.
    rewrite Hget. cbn [snd]. fold currentTime. now rewrite Hgt.
Qed.

End SweepAndCapacity.

(** ** Writing and reading back *)

Section WriteAndRead.

Variable clock : nat -> Z.

Lemma wf_props_stamped (now e : Z) (value : JsVal) :
  JsMap.wf (props (stamped now e value)).
Proof.
  unfold stamped. cbn [props].
  destruct value; cbn [spreadable];
    try (constructor; [intros [] | constructor]); try constructor.
  apply JsMapFacts.wf_remove, JsMapFacts.wf_remove, wf_assign. constructor.
Qed.

(** The properties of the result other than the two stamps come from the
    stored object first, then from [success] and [key]. *)
Lemma stored_other (k name : string) (d : TStorageValue) :
  JsMap.wf (props d) ->
  name <> "expireAt" -> name <> "updateAt" ->
  JsMap.get name (stored k d)
  = match JsMap.get name (props d) with
    | Some x => Some x
    | None => JsMap.get name [("success", VBool true); ("key", VString k)]
    end.
Proof.
  intros Hwf He Hu. unfold stored, ownProperties. rewrite assign_app.
  unfold JsMap.assign at 1. cbn [List.fold_left fst snd].
  rewrite !JsMapFacts.get_set_neq by congruence.
  rewrite get_assign. now rewrite assign_empty_wf.
Qed.

Lemma afterCapacity_expireMs (w : State) :
  _expireMs (this (afterCapacity clock w)) = _expireMs (this w).
Proof. unfold afterCapacity. now destruct (reaches _ _). Qed.

(** X5.  What [buildData] stores and what a write returns.  A payload that
    fails the test [typeof value === 'object' && value !== null &&
    !Array.isArray(value)] (a number, a string, a boolean, [undefined], a
    symbol, [null], an array) is stored under the single property [value]
    and comes back as [result.value].  A payload that passes it is spread:
    each of its own properties, other than [expireAt] and [updateAt], is a
    property of the stored object and of the result with the same value; a
    [Date] passes the test and has no own property, so nothing of it is
    stored and the result has no [value].  In every case [expireAt] and
    [updateAt] of the result are the two stamps of the stored object,
    whatever the payload carries under those names. *)
Theorem upsert_wraps_payload (w : State) (k : string) (value : JsVal) :
  JsMap.wf (storage w) ->
  exists (r : TStorageResult) (d : TStorageValue) (w' : State),
    upsert clock (VString k) value w = (Normal r, w')
    /\ JsMap.get k (storage w') = Some d
    /\ (spreadable value = None ->
        props d = [("value", value)] /\ JsMap.get "value" r = Some value)
    /\ (forall name x,
          ownProperty name value = Some x ->
          name <> "expireAt" -> name <> "updateAt" ->
          JsMap.get name (props d) = Some x /\ JsMap.get name r = Some x)
    /\ (forall date, value = VDate date ->
          props d = [] /\ JsMap.get "value" r = None)
    /\ JsMap.get "expireAt" r = Some (VDate (expireAt d))
    /\ JsMap.get "updateAt" r = Some (VDate (updateAt d)).
Proof.
  intros Hwf.
  set (w1 := if JsMap.has k (storage w) then w else afterCapacity clock w).
  exists (stored k (dataAt clock value w1)), (dataAt clock value w1),
         (written clock k value w1).
  split; [|split; [|split; [|split; [|split; [|split]]]]].
  - rewrite upsert_run by assumption. subst w1.
    now destruct (JsMap.has k (storage w)).
  - unfold written. rewrite storage_withStorage. apply JsMapFacts.get_set_eq.
  - intros Hscalar. unfold dataAt, stamped. cbn [props]. rewrite Hscalar.
    split; [reflexivity|].
    unfold stored, ownProperties. cbn [props expireAt updateAt].
    unfold JsMap.assign. cbn [List.fold_left List.app fst snd].
    rewrite !JsMapFacts.get_set_neq by discriminate.
    apply JsMapFacts.get_set_eq.
  - intros name x Hown He Hu.
    assert (Hp : JsMap.get name (props (dataAt clock value w1)) = Some x).
    { unfold dataAt, stamped. cbn [props]. unfold ownProperty in Hown.
      destruct (spreadable value) as [ps|]; [|discriminate].
      rewrite !JsMapFacts.get_remove_neq by congruence. exact Hown. }
    split; [exact Hp|].
    rewrite stored_other by (try apply wf_props_stamped; assumption).
    now rewrite Hp.
  - intros date ->. split; reflexivity.
  - apply stored_expireAt.
  - apply stored_updateAt.
Qed.

(** X6.  After [add] has stored a new key, [get] of that key returns the
    object just built and changes nothing: its [updateAt] is the last
    reading of the clock and its [expireAt] is that reading plus
    [expireMs], whether or not the capacity policy ran in between. *)
Theorem add_then_get (w : State) (k : string) (value : JsVal) :
  JsMap.wf (storage w) ->
  JsMap.has k (storage w) = false ->
  let w' := snd (add clock (VString k) value w) in
  let now := clock (Nat.pred (nowReads w')) in
  exists d : TStorageValue,
    get (VString k) w' = (Normal (Some d), w')
    /\ updateAt d = new_Date now
    /\ expireAt d = new_Date (now + _expireMs (this w)).
Proof.
  intros Hwf Habsent w' now. subst now w'.
  rewrite add_run by assumption. rewrite Habsent. cbn [snd].
  exists (dataAt clock value (afterCapacity clock w)).
  rewrite get_run. unfold written at 1 2. rewrite storage_withStorage.
  rewrite JsMapFacts.get_set_eq. split; [reflexivity|].
  unfold written, dataAt, stamped. cbn [updateAt expireAt nowReads
                                         withStorage with_this afterReading
                                         Nat.pred].
  rewrite afterCapacity_expireMs. auto.
Qed.

Lemma upsert_present_run (w : State) (k : string) (value : JsVal) :
  JsMap.has k (storage w) = true ->
  upsert clock (VString k) value w
  = (Normal (stored k (dataAt clock value w)), written clock k value w).
Proof.
  intros Hhas. unfold upsert, validateKey, storage_has, field.
  unfold bind at 1 2 3. unfold ret at 1 2. cbv beta iota.
  change (_storage (this w)) with (storage w). rewrite Hhas.
  unfold negb, when. cbv iota.
  unfold bind at 1. unfold ret at 1. cbv beta iota. apply write_run.
Qed.

(** X7.  [upsert] on a key that is present overwrites in place: the keys
    and their order are as before, every other entry is untouched, the clock
    is read exactly once (no sweep runs), and the key maps to the object
    built from that reading. *)
Theorem upsert_existing_key_in_place (w : State) (k : string) (value : JsVal) :
  JsMap.has k (storage w) = true ->
  let w' := snd (upsert clock (VString k) value w) in
  JsMap.keys (storage w') = JsMap.keys (storage w)
  /\ (forall k', k' <> k ->
         JsMap.get k' (storage w') = JsMap.get k' (storage w))
  /\ nowReads w' = S (nowReads w)
  /\ JsMap.get k (storage w')
     = Some (stamped (clock (nowReads w)) (_expireMs (this w)) value).
Proof.
  intros Hhas w'. subst w'. rewrite upsert_present_run by assumption.
  cbn [snd]. unfold written. rewrite storage_withStorage.
  split; [|split; [|split]].
  - now apply JsMapFacts.keys_set_present.
  - intros k' Hne. apply JsMapFacts.get_set_neq. congruence.
  - reflexivity.
  - apply JsMapFacts.get_set_eq.
Qed.

(** X8.  [update] on a key that is present always succeeds in keeping the
    key, with the object built at the last reading of the clock, and never
    makes the map larger, also when the capacity policy sweeps first (and
    even when the sweep deletes the very entry being updated). *)
Theorem update_present_never_grows (w : State) (k : string) (value : JsVal) :
  JsMap.wf (storage w) ->
  JsMap.has k (storage w) = true ->
  let w' := snd (update clock (VString k) value w) in
  JsMap.has k (storage w') = true
  /\ (sizeOf w' <= sizeOf w)%nat
  /\ (reaches (sizeOf w) (_maxItems (this w)) = false ->
      JsMap.keys (storage w') = JsMap.keys (storage w)).
Proof.
  intros Hwf Hhas w'. subst w'.
  rewrite update_run by assumption. rewrite Hhas. cbn [snd].
  split.
  { unfold written. rewrite storage_withStorage. apply JsMapFacts.has_set_eq. }
  unfold afterCapacity.
  destruct (reaches (sizeOf w) (_maxItems (this w))) eqn:Hr.
  - split; [|discriminate].
    unfold sizeOf, written. rewrite !storage_withStorage. unfold survivors.
    set (p := fun kd : string * TStorageValue =>
                negb (JsDate.gt (expireAt (snd kd))
                                (new_Date (clock (nowReads w))))).
    destruct (JsMap.has k (List.filter p (storage w))) eqn:Hk.
    + rewrite JsMapFacts.size_set_present by assumption.
      apply size_filter_le.
    + rewrite JsMapFacts.size_set_absent by assumption.
      now apply size_filter_lt with (k := k).
  - unfold sizeOf, written. rewrite !storage_withStorage. split.
    + now rewrite JsMapFacts.size_set_present.
    + intros _. now apply JsMapFacts.keys_set_present.
Qed.

End WriteAndRead.

(** ** Stores below their bound, deleting and clearing *)

Section BelowTheBound.

Variable clock : nat -> Z.

Lemma add_below_run (w : State) (k : string) (value : JsVal) :
  reaches (sizeOf w) (_maxItems (this w)) = false ->
  add clock (VString k) value w
  = if JsMap.has k (storage w)
    then (Normal failure, w)
    else (Normal (stored k (dataAt clock value w)), written clock k value w).
Proof.
  intros Hr. unfold add, validateKey, storage_has, field.
  unfold bind at 1 2 3. unfold ret at 1 2. cbv beta iota.
  change (_storage (this w)) with (storage w).
  destruct (JsMap.has k (storage w)); [reflexivity|].
  unfold bind at 1. rewrite handleMaxCapacity_below by assumption.
  apply write_run.
Qed.

Lemma update_below_run (w : State) (k : string) (value : JsVal) :
  reaches (sizeOf w) (_maxItems (this w)) = false ->
  update clock (VString k) value w
  = if JsMap.has k (storage w)
    then (Normal (stored k (dataAt clock value w)), written clock k value w)
    else (Normal failure, w).
Proof.
  intros Hr. unfold update, validateKey, storage_has, field.
  unfold bind at 1 2 3. unfold ret at 1 2. cbv beta iota.
  change (_storage (this w)) with (storage w).
  destruct (JsMap.has k (storage w)); [|reflexivity].
  unfold negb. cbv iota.
  unfold bind at 1. rewrite handleMaxCapacity_below by assumption.
  apply write_run.
Qed.

Lemma upsert_below_run (w : State) (k : string) (value : JsVal) :
  reaches (sizeOf w) (_maxItems (this w)) = false ->
  upsert clock (VString k) value w
  = (Normal (stored k (dataAt clock value w)), written clock k value w).
Proof.
  intros Hr. unfold upsert, validateKey, storage_has, field.
  unfold bind at 1 2 3. unfold ret at 1 2. cbv beta iota.
  change (_storage (this w)) with (storage w).
  destruct (JsMap.has k (storage w)); unfold negb, when; cbv iota.
  - unfold bind at 1. unfold ret at 1. cbv beta iota. apply write_run.
  - unfold bind at 1. rewrite handleMaxCapacity_below by assumption.
    apply write_run.
Qed.

Lemma has_set_mono (k k' : string) (d : TStorageValue)
      (m : JsMap.t TStorageValue) :
  JsMap.has k' m = true -> JsMap.has k' (JsMap.set k d m) = true.
Proof.
  intros H. destruct (String.eqb_spec k k') as [->|Hne].
  - apply JsMapFacts.has_set_eq.
  - unfold JsMap.has in *. now rewrite JsMapFacts.get_set_neq.
Qed.

Lemma size_set_le (k : string) (d : TStorageValue)
      (m : JsMap.t TStorageValue) :
  (JsMap.size m <= JsMap.size (JsMap.set k d m) <= S (JsMap.size m))%nat.
Proof.
  destruct (JsMap.has k m) eqn:Hhas.
  - rewrite JsMapFacts.size_set_present by assumption. lia.
  - rewrite JsMapFacts.size_set_absent by assumption. lia.
Qed.

Lemma written_keeps (k : string) (value : JsVal) (w : State) :
  (forall k', JsMap.has k' (storage w) = true ->
              JsMap.has k' (storage (written clock k value w)) = true)
  /\ (sizeOf w <= sizeOf (written clock k value w))%nat.
Proof.
  unfold sizeOf, written. rewrite storage_withStorage. split.
  - intros k'. apply has_set_mono.
  - apply size_set_le.
Qed.

(** X9.  In a store built without [maxItems], no call of [add], [update] or
    [upsert], with whatever key and payload, ever removes an entry: every
    key that was present is present afterwards and the size does not
    decrease. *)
Theorem unbounded_writes_never_remove (w : State) (key value : JsVal) :
  _maxItems (this w) = Infinity ->
  forall w' : State,
    w' = snd (add clock key value w)
    \/ w' = snd (update clock key value w)
    \/ w' = snd (upsert clock key value w) ->
    (forall k', JsMap.has k' (storage w) = true ->
                JsMap.has k' (storage w') = true)
    /\ (sizeOf w <= sizeOf w')%nat.
Proof.
  intros Hinf w' Hw'.
  assert (Hr : reaches (sizeOf w) (_maxItems (this w)) = false)
    by now rewrite Hinf.
  assert (Hsame : (forall k', JsMap.has k' (storage w) = true ->
                              JsMap.has k' (storage w) = true)
                  /\ (sizeOf w <= sizeOf w)%nat) by (split; auto).
  destruct key as [| |b|n|k|d|items|ps|description|error];
    try (destruct Hw' as [ -> | [ -> | -> ] ]; exact Hsame).
  destruct Hw' as [ -> | [ -> | -> ] ].
  - rewrite add_below_run by assumption.
    destruct (JsMap.has k (storage w)); [exact Hsame | apply written_keeps].
  - rewrite update_below_run by assumption.
    destruct (JsMap.has k (storage w)); [apply written_keeps | exact Hsame].
  - rewrite upsert_below_run by assumption. apply written_keeps.
Qed.

(** X10.  Below the bound, [add] of a new key followed by [delete] of that
    key gives the instance back as it was: [delete] returns [true] and the
    map, with its order, and the configuration are those from before the
    [add]. *)
Theorem add_then_delete_restores (w : State) (k : string) (value : JsVal) :
  JsMap.has k (storage w) = false ->
  reaches (sizeOf w) (_maxItems (this w)) = false ->
  exists w'' : State,
    delete (VString k) (snd (add clock (VString k) value w))
    = (Normal true, w'')
    /\ this w'' = this w.
Proof.
  intros Habsent Hr.
  rewrite add_below_run by assumption. rewrite Habsent. cbn [snd].
  rewrite delete_run. unfold written at 1. rewrite storage_withStorage.
  rewrite JsMapFacts.has_set_eq.
  eexists. split; [reflexivity|].
  unfold written. rewrite storage_withStorage.
  rewrite remove_set_absent by assumption.
  destruct w as [[m mx e kl ci cims] n b c]. reflexivity.
Qed.

(** X11.  [delete] touches one key only, and a second [delete] of the same
    key finds nothing: it returns [false] and changes nothing. *)
Theorem delete_twice (w : State) (k : string) :
  JsMap.wf (storage w) ->
  let w1 := snd (delete (VString k) w) in
  delete (VString k) w1 = (Normal false, w1)
  /\ (forall k', k' <> k ->
         JsMap.get k' (storage w1) = JsMap.get k' (storage w)).
Proof.
  intros Hwf w1. subst w1. rewrite !delete_run. cbn [snd]. split.
  - rewrite storage_withStorage.
    rewrite JsMapFacts.has_remove_eq by assumption.
    rewrite JsMapFacts.remove_absent
      by now apply JsMapFacts.has_remove_eq.
    reflexivity.
  - intros k' Hne. rewrite storage_withStorage.
    apply JsMapFacts.get_remove_neq. congruence.
Qed.

(** X12.  [clear] empties the map whatever it held and leaves the
    configuration and the timer alone; an [add] right after it always
    succeeds in storing its key, and the map then holds that key alone,
    whatever [maxItems] is. *)
Theorem clear_then_add (w : State) (k : string) (value : JsVal) :
  let w0 := snd (clear w) in
  let w1 := snd (add clock (VString k) value w0) in
  sizeOf w0 = 0%nat
  /\ configOf (this w0) = configOf (this w)
  /\ _cleanupInterval (this w0) = _cleanupInterval (this w)
  /\ JsMap.keys (storage w1) = [k]
  /\ sizeOf w1 = 1%nat.
Proof.
  intros w0 w1.
  assert (Hwf : JsMap.wf (storage w0)) by constructor.
  split; [reflexivity|]. split; [reflexivity|]. split; [reflexivity|].
  subst w1. rewrite add_run by assumption.
  change (JsMap.has k (storage w0)) with false. cbv iota. cbn [snd].
  unfold sizeOf, written. rewrite storage_withStorage.
  assert (Hs : storage (afterCapacity clock w0) = []).
  { unfold afterCapacity. now destruct (reaches _ _). }
  rewrite Hs. split; reflexivity.
Qed.

End BelowTheBound.

(** ** Over the life of an instance *)

Section Lifetime.

Variable clock : nat -> Z.
Variable entropy : nat -> Byte.byte.

(** X13.  [stopCleanup] is final: after it, whatever is called and however
    often the interval would fire, the timer stays stopped, and a firing of
    the interval changes nothing. *)
Theorem stopCleanup_is_final (w : State) (calls : list Call) :
  let w' := performAll clock entropy calls (snd (stopCleanup w)) in
  _cleanupInterval (this w') = false
  /\ intervalFires clock w' = (Normal tt, w').
Proof.
  intros w'.
  assert (Hoff : _cleanupInterval (this w') = false).
  { destruct (performAll_evolves clock entropy calls (snd (stopCleanup w)))
      as [_ [Harmed _]].
    fold w' in Harmed.
    destruct (_cleanupInterval (this w')); [|reflexivity].
    specialize (Harmed eq_refl). discriminate. }
  split; [exact Hoff|].
  unfold intervalFires, bind, field, when. cbv beta iota.
  now rewrite Hoff.
Qed.

(** X14.  The configuration is fixed at construction.  After any sequence
    of calls and timer firings, [maxItems], [expireMs], the key length and
    the sweep period are the constructor's arguments, with [Infinity], 24
    hours, 8 and 24 hours for those left out; the getters return them and
    change nothing; and nothing more has been written to the console. *)
Theorem configuration_is_fixed (cfg : IConfig) (calls : list Call) :
  let w := performAll clock entropy calls (new_StorageManager cfg) in
  maxItems w
  = (Normal match cfg_maxItems cfg with Some m => Finite m | None => Infinity end,
     w)
  /\ expireMs w
     = (Normal match cfg_expireMs cfg with Some e => e | None => 86400000 end,
        w)
  /\ _keyLength (this w)
     = match cfg_keyLength cfg with Some l => l | None => 8 end
  /\ _cleanupIntervalMs (this w)
     = match cfg_cleanupIntervalMs cfg with Some i => i | None => 86400000 end
  /\ console w = console (new_StorageManager cfg).
Proof.
  intros w.
  destruct (performAll_evolves clock entropy calls (new_StorageManager cfg))
    as [Hcfg [_ [Hconsole _]]].
  fold w in Hcfg, Hconsole. unfold configOf in Hcfg.
  inversion Hcfg as [[Hm He Hk Hi]].
  unfold maxItems, expireMs, field. rewrite Hm, He, Hk, Hi, Hconsole.
  cbn [new_StorageManager this _maxItems _expireMs _keyLength
       _cleanupIntervalMs].
  repeat split.
Qed.

(** X15.  The constructor never rejects a configuration.  It starts with an
    empty map and an armed timer, and it writes the warning about the key
    length exactly when a key length is given that is not 0 and lies
    outside 6..32 (6 and 32 themselves pass silently). *)
Theorem constructor_warns_outside_6_32 (cfg : IConfig) :
  let w := new_StorageManager cfg in
  storage w = []
  /\ _cleanupInterval (this w) = true
  /\ (console w = [keyLengthWarning]
      <-> exists l, cfg_keyLength cfg = Some l /\ l <> 0 /\ (l < 6 \/ 32 < l))
  /\ (console w = []
      <-> (cfg_keyLength cfg = None
           \/ exists l, cfg_keyLength cfg = Some l /\ (l = 0 \/ 6 <= l <= 32))).
Proof.
  intros w. subst w. unfold new_StorageManager, storage.
  cbn [this _storage _cleanupInterval console].
  split; [reflexivity|]. split; [reflexivity|].
  destruct (cfg_keyLength cfg) as [l|].
  - destruct (Z.eqb_spec l 0) as [Hz|Hz];
      destruct (Z.ltb_spec l 6); destruct (Z.ltb_spec 32 l);
      cbn [negb andb orb]; split; split;
      try discriminate; try reflexivity;
      try (intros _; exists l; split; [reflexivity|]; lia);
      try (intros [l' [Hl' H']]; inversion Hl'; subst; lia);
      try (intros _; right; exists l; split; [reflexivity|]; lia);
      try (intros [Hn|[l' [Hl' H']]]; [discriminate|];
           inversion Hl'; subst; lia).
  - split; split; try discriminate; try reflexivity.
    + intros [l [Hl _]]. discriminate.
    + intros _. now left.
Qed.

Lemma sizeOf_afterCapacity_le (w : State) :
  (sizeOf (afterCapacity clock w) <= sizeOf w)%nat.
Proof.
  unfold afterCapacity. destruct (reaches _ _); [|lia].
  unfold sizeOf. rewrite storage_withStorage. apply size_filter_le.
Qed.

Lemma sizeOf_written_le (k : string) (value : JsVal) (w : State) :
  (sizeOf (written clock k value w) <= S (sizeOf w))%nat.
Proof.
  unfold sizeOf, written. rewrite storage_withStorage. apply size_set_le.
Qed.

(** X16.  No call and no firing of the timer makes the map grow by more
    than one entry. *)
Theorem size_grows_by_at_most_one (w : State) (c : Call) :
  JsMap.wf (storage w) ->
  (sizeOf (perform clock entropy c w) <= S (sizeOf w))%nat.
Proof.
  intros Hwf.
  destruct c as [key value|key value|key value|key|key| | | |];
    cbn [perform].
  - destruct key; try (cbn; lia).
    rewrite add_run by assumption.
    destruct (JsMap.has s (storage w)); cbn [snd]; [lia|].
    pose proof (sizeOf_written_le s value (afterCapacity clock w)).
    pose proof (sizeOf_afterCapacity_le w). lia.
  - destruct key; try (cbn; lia).
    rewrite update_run by assumption.
    destruct (JsMap.has s (storage w)); cbn [snd]; [|lia].
    pose proof (sizeOf_written_le s value (afterCapacity clock w)).
    pose proof (sizeOf_afterCapacity_le w). lia.
  - destruct key; try (cbn; lia).
    rewrite upsert_run by assumption.
    destruct (JsMap.has s (storage w)); cbn [snd].
    + apply sizeOf_written_le.
    + pose proof (sizeOf_written_le s value (afterCapacity clock w)).
      pose proof (sizeOf_afterCapacity_le w). lia.
  - destruct key; cbn; lia.
  - destruct key; try (cbn; lia).
    rewrite delete_run. cbn [snd]. unfold sizeOf.
    rewrite storage_withStorage.
    destruct (JsMap.has s (storage w)) eqn:Hhas.
    + pose proof (JsMapFacts.size_remove_present _ _ Hhas). lia.
    + rewrite JsMapFacts.remove_absent by assumption. lia.
  - change (0 <= S (sizeOf w))%nat. lia.
  - change (sizeOf w <= S (sizeOf w))%nat. lia.
  - unfold getUniqueKey, sizeOf, storage.
    rewrite getUniqueKey_loop_this. lia.
  - unfold intervalFires, bind, field, when. cbv beta iota.
    destruct (_cleanupInterval (this w));
      [|change (sizeOf w <= S (sizeOf w))%nat; lia].
    rewrite cleanup_run by assumption. cbn [snd]. unfold sizeOf.
    rewrite storage_withStorage.
    pose proof (size_filter_le
                  (fun kd : string * TStorageValue =>
                     negb (JsDate.gt (expireAt (snd kd))
                                     (new_Date (clock (nowReads w)))))
                  (storage w)).
    unfold survivors. lia.
Qed.

(** X18.  With a negative key length, [getUniqueKey] throws the RangeError
    of [crypto.randomBytes] at its first attempt: it draws no byte, makes no
    retry and leaves the state as it was. *)
Theorem getUniqueKey_negative_throws (w : State) :
  _keyLength (this w) < 0 ->
  getUniqueKey entropy w
  = (Throw (RangeError {| doubled := _keyLength (this w) |}), w).
Proof. intros Hneg. now apply getUniqueKey_loop_negative. Qed.

End Lifetime.

(** ** The stamps of the stored objects *)

Section Stamps.

Variable clock : nat -> Z.
Variable entropy : nat -> Byte.byte.

Lemma stampedFromClock_subset (w w' : State) :
  (forall kd, In kd (storage w') -> In kd (storage w)) ->
  (nowReads w <= nowReads w')%nat ->
  _expireMs (this w') = _expireMs (this w) ->
  stampedFromClock clock w -> stampedFromClock clock w'.
Proof.
  intros Hsub Hn He Hs k d Hin.
  destruct (Hs k d (Hsub _ Hin)) as [i [Hi [Hu Hx]]].
  exists i. rewrite He. repeat split; auto. lia.
Qed.

Lemma stampedFromClock_afterCapacity (w : State) :
  stampedFromClock clock w -> stampedFromClock clock (afterCapacity clock w).
Proof.
  apply stampedFromClock_subset; unfold afterCapacity;
    destruct (reaches _ _); auto.
  - intros kd. rewrite storage_withStorage. unfold survivors.
    intros Hin. now apply filter_In in Hin.
  - cbn. lia.
Qed.

Lemma stampedFromClock_written (k : string) (value : JsVal) (w : State) :
  stampedFromClock clock w -> stampedFromClock clock (written clock k value w).
Proof.
  intros Hs k' d' Hin. unfold written in Hin.
  rewrite storage_withStorage in Hin.
  apply In_set in Hin as [Hin|Hnew].
  - destruct (Hs k' d' Hin) as [i [Hi [Hu Hx]]].
    exists i. repeat split; auto. cbn. lia.
  - inversion Hnew; subst. exists (nowReads w).
    repeat split. cbn. lia.
Qed.

Lemma getUniqueKey_loop_nowReads (retries : nat) (w : State) :
  nowReads (snd (getUniqueKey_loop entropy retries w)) = nowReads w.
Proof.
  destruct (getUniqueKey_loop_only_draws entropy retries w) as [n [H|H]];
    now rewrite H.
Qed.

Lemma perform_stampedFromClock (c : Call) (w : State) :
  JsMap.wf (storage w) ->
  stampedFromClock clock w ->
  stampedFromClock clock (perform clock entropy c w).
Proof.
  intros Hwf Hs.
  destruct c as [key value|key value|key value|key|key| | | |];
    cbn [perform].
  - destruct key; try exact Hs.
    rewrite add_run by assumption.
    destruct (JsMap.has s (storage w)); [exact Hs|].
    now apply stampedFromClock_written, stampedFromClock_afterCapacity.
  - destruct key; try exact Hs.
    rewrite update_run by assumption.
    destruct (JsMap.has s (storage w)); [|exact Hs].
    now apply stampedFromClock_written, stampedFromClock_afterCapacity.
  - destruct key; try exact Hs.
    rewrite upsert_run by assumption.
    destruct (JsMap.has s (storage w)).
    + now apply stampedFromClock_written.
    + now apply stampedFromClock_written, stampedFromClock_afterCapacity.
  - destruct key; exact Hs.
  - destruct key; try exact Hs.
    rewrite delete_run. cbn [snd].
    revert Hs. apply stampedFromClock_subset; auto.
    intros kd. rewrite storage_withStorage. apply In_remove.
  - intros k d [].
  - exact Hs.
  - revert Hs. unfold getUniqueKey.
    apply stampedFromClock_subset.
    + unfold storage. now rewrite getUniqueKey_loop_this.
    + now rewrite getUniqueKey_loop_nowReads.
    + now rewrite getUniqueKey_loop_this.
  - unfold intervalFires, bind, field, when. cbv beta iota.
    destruct (_cleanupInterval (this w)); [|exact Hs].
    rewrite cleanup_run by assumption. cbn [snd].
    revert Hs. apply stampedFromClock_subset; auto.
    + intros kd. rewrite storage_withStorage. unfold survivors.
      intros Hin. now apply filter_In in Hin.
    + cbn. lia.
Qed.

Lemma performAll_stampedFromClock (calls : list Call) : forall w : State,
  JsMap.wf (storage w) ->
  stampedFromClock clock w ->
  stampedFromClock clock (performAll clock entropy calls w).
Proof.
  induction calls as [|c calls IH]; intros w Hwf Hs; simpl; auto.
  apply IH; [now apply perform_wf | now apply perform_stampedFromClock].
Qed.

Lemma new_Date_TimeValue (t u : Z) : new_Date t = TimeValue u -> u = t.
Proof.
  unfold new_Date, TimeClip.
  destruct (Z.abs t <=? maxTimeValue); congruence.
Qed.

(** X17.  After any sequence of calls and timer firings, every stored
    object carries the stamps of one reading of the clock: [updateAt] is
    [new Date(t)] and [expireAt] is [new Date(t + expireMs)] for a reading
    [t] already taken.  So whenever both are valid dates, [expireAt] is
    exactly [expireMs] after [updateAt]. *)
Theorem stamps_come_from_one_reading (cfg : IConfig) (calls : list Call) :
  let w := performAll clock entropy calls (new_StorageManager cfg) in
  stampedFromClock clock w
  /\ (forall k d u e,
        JsMap.get k (storage w) = Some d ->
        updateAt d = TimeValue u ->
        expireAt d = TimeValue e ->
        e = u + _expireMs (this w)).
Proof.
  intros w.
  assert (Hs : stampedFromClock clock w).
  { apply performAll_stampedFromClock; [constructor|]. intros k d []. }
  split; [exact Hs|].
  intros k d u e Hget Hu He.
  destruct (Hs k d (JsMapFacts.get_In _ _ Hget)) as [i [_ [Hu' He']]].
  rewrite Hu in Hu'. rewrite He in He'.
  symmetry in Hu', He'.
  apply new_Date_TimeValue in Hu'. apply new_Date_TimeValue in He'. lia.
Qed.

End Stamps.

(** ** The further properties at concrete inputs *)

(** A sweep of the bounded store at time 2000. *)
Lemma cleanup_deletes_exactly_later_witness :
  JsMap.wf (storage fullStore)
  /\ (let currentTime := new_Date (fullClock (nowReads fullStore)) in
      let w' := snd (cleanup fullClock fullStore) in
      nowReads w' = S (nowReads fullStore)
      /\ (forall k : string,
            JsMap.get k (storage w')
            = match JsMap.get k (storage fullStore) with
              | Some d =>
                  if JsDate.gt (expireAt d) currentTime then None else Some d
              | None => None
              end)
      /\ (sizeOf w' <= sizeOf fullStore)%nat).
Proof.
  assert (Hwf : JsMap.wf (storage fullStore)).
  { vm_compute. constructor; [intros [] | constructor]. }
  split; [exact Hwf|].
  apply (cleanup_deletes_exactly_later fullClock fullStore Hwf).
Defined.

(** The capacity policy on the bounded store at time 2000. *)
Lemma handleMaxCapacity_removes_only_later_witness :
  JsMap.wf (storage fullStore)
  /\ (let w' := snd (handleMaxCapacity fullClock fullStore) in
      (reaches (sizeOf fullStore) (_maxItems (this fullStore)) = false ->
       w' = fullStore)
      /\ (forall k d, JsMap.get k (storage w') = Some d ->
                      JsMap.get k (storage fullStore) = Some d)
      /\ (forall k d, JsMap.get k (storage fullStore) = Some d ->
                      JsMap.get k (storage w') = None ->
                      reaches (sizeOf fullStore) (_maxItems (this fullStore))
                      = true
                      /\ JsDate.gt (expireAt d)
                                   (new_Date (fullClock (nowReads fullStore)))
                         = true)).
Proof.
  assert (Hwf : JsMap.wf (storage fullStore)).
  { vm_compute. constructor; [intros [] | constructor]. }
  split; [exact Hwf|].
  apply (handleMaxCapacity_removes_only_later fullClock fullStore Hwf).
Defined.

(** [add('b', 2)] on the bounded store, which is full. *)
Lemma add_on_full_store_drops_live_entries_witness :
  (JsMap.wf (storage fullStore)
   /\ JsMap.has "b" (storage fullStore) = false
   /\ reaches (sizeOf fullStore) (_maxItems (this fullStore)) = true)
  /\ (let currentTime := new_Date (fullClock (nowReads fullStore)) in
      let w' := snd (add fullClock (VString "b") (VNumber 2) fullStore) in
      JsMap.has "b" (storage w') = true
      /\ (forall k' d', k' <> "b" ->
             JsMap.get k' (storage w') = Some d' ->
             JsMap.get k' (storage fullStore) = Some d'
             /\ JsDate.gt (expireAt d') currentTime = false)
      /\ (forall k' d', JsMap.get k' (storage fullStore) = Some d' ->
             JsDate.gt (expireAt d') currentTime = true ->
             JsMap.has k' (storage w') = false)).
Proof.
  assert (Hwf : JsMap.wf (storage fullStore)).
  { vm_compute. constructor; [intros [] | constructor]. }
  split; [split; [exact Hwf | split; reflexivity]|].
  apply (add_on_full_store_drops_live_entries fullClock fullStore "b"
           (VNumber 2) Hwf); reflexivity.
Defined.

(** [upsert('b', {n: 9})] on the store that holds [a]. *)
Lemma upsert_wraps_payload_witness :
  JsMap.wf (storage storeWithA)
  /\ exists (r : TStorageResult) (d : TStorageValue) (w' : State),
      upsert (readings [0; 7]) (VString "b") (VObject [("n", VNumber 9)])
             storeWithA
      = (Normal r, w')
      /\ JsMap.get "b" (storage w') = Some d
      /\ (spreadable (VObject [("n", VNumber 9)]) = None ->
          props d = [("value", VObject [("n", VNumber 9)])]
          /\ JsMap.get "value" r = Some (VObject [("n", VNumber 9)]))
      /\ (forall name x,
            ownProperty name (VObject [("n", VNumber 9)]) = Some x ->
            name <> "expireAt" -> name <> "updateAt" ->
            JsMap.get name (props d) = Some x /\ JsMap.get name r = Some x)
      /\ (forall date, VObject [("n", VNumber 9)] = VDate date ->
            props d = [] /\ JsMap.get "value" r = None)
      /\ JsMap.get "expireAt" r = Some (VDate (expireAt d))
      /\ JsMap.get "updateAt" r = Some (VDate (updateAt d)).
Proof.
  assert (Hwf : JsMap.wf (storage storeWithA)).
  { vm_compute. constructor; [intros [] | constructor]. }
  split; [exact Hwf|].
  apply (upsert_wraps_payload (readings [0; 7]) storeWithA "b"
           (VObject [("n", VNumber 9)]) Hwf).
Defined.

(** [add('b', 2)] then [get('b')] on the bounded store. *)
Lemma add_then_get_witness :
  (JsMap.wf (storage fullStore)
   /\ JsMap.has "b" (storage fullStore) = false)
  /\ (let w' := snd (add fullClock (VString "b") (VNumber 2) fullStore) in
      let now := fullClock (Nat.pred (nowReads w')) in
      exists d : TStorageValue,
        get (VString "b") w' = (Normal (Some d), w')
        /\ updateAt d = new_Date now
        /\ expireAt d = new_Date (now + _expireMs (this fullStore))).
Proof.
  assert (Hwf : JsMap.wf (storage fullStore)).
  { vm_compute. constructor; [intros [] | constructor]. }
  split; [split; [exact Hwf | reflexivity]|].
  apply (add_then_get fullClock fullStore "b" (VNumber 2) Hwf).
  reflexivity.
Defined.

(** [upsert('a', 5)] at time 7 on the store that holds [a]. *)
Lemma upsert_existing_key_in_place_witness :
  JsMap.has "a" (storage storeWithA) = true
  /\ (let w' := snd (upsert (readings [0; 7]) (VString "a") (VNumber 5)
                            storeWithA) in
      JsMap.keys (storage w') = JsMap.keys (storage storeWithA)
      /\ (forall k', k' <> "a" ->
             JsMap.get k' (storage w') = JsMap.get k' (storage storeWithA))
      /\ nowReads w' = S (nowReads storeWithA)
      /\ JsMap.get "a" (storage w')
         = Some (stamped (readings [0; 7] (nowReads storeWithA))
                         (_expireMs (this storeWithA)) (VNumber 5))).
Proof.
  split; [reflexivity|].
  apply (upsert_existing_key_in_place (readings [0; 7]) storeWithA "a"
           (VNumber 5)).
  reflexivity.
Defined.

(** [update('a', 5)] on the bounded store, which is full. *)
Lemma update_present_never_grows_witness :
  (JsMap.wf (storage fullStore)
   /\ JsMap.has "a" (storage fullStore) = true)
  /\ (let w' := snd (update fullClock (VString "a") (VNumber 5) fullStore) in
      JsMap.has "a" (storage w') = true
      /\ (sizeOf w' <= sizeOf fullStore)%nat
      /\ (reaches (sizeOf fullStore) (_maxItems (this fullStore)) = false ->
          JsMap.keys (storage w') = JsMap.keys (storage fullStore))).
Proof.
  assert (Hwf : JsMap.wf (storage fullStore)).
  { vm_compute. constructor; [intros [] | constructor]. }
  split; [split; [exact Hwf | reflexivity]|].
  apply (update_present_never_grows fullClock fullStore "a" (VNumber 5) Hwf).
  reflexivity.
Defined.

(** Writes of the key [b] into the unbounded store that holds [a]. *)
Lemma unbounded_writes_never_remove_witness :
  _maxItems (this storeWithA) = Infinity
  /\ (forall w' : State,
        w' = snd (add (readings [0; 7]) (VString "b") (VNumber 2) storeWithA)
        \/ w' = snd (update (readings [0; 7]) (VString "b") (VNumber 2)
                            storeWithA)
        \/ w' = snd (upsert (readings [0; 7]) (VString "b") (VNumber 2)
                            storeWithA) ->
        (forall k', JsMap.has k' (storage storeWithA) = true ->
                    JsMap.has k' (storage w') = true)
        /\ (sizeOf storeWithA <= sizeOf w')%nat).
Proof.
  split; [reflexivity|].
  apply (unbounded_writes_never_remove (readings [0; 7]) storeWithA
           (VString "b") (VNumber 2)).
  reflexivity.
Defined.

(** [add('b', 2)] then [delete('b')] on the store that holds [a]. *)
Lemma add_then_delete_restores_witness :
  (JsMap.has "b" (storage storeWithA) = false
   /\ reaches (sizeOf storeWithA) (_maxItems (this storeWithA)) = false)
  /\ exists w'' : State,
      delete (VString "b")
             (snd (add (readings [0; 7]) (VString "b") (VNumber 2) storeWithA))
      = (Normal true, w'')
      /\ this w'' = this storeWithA.
Proof.
  split; [split; reflexivity|].
  apply (add_then_delete_restores (readings [0; 7]) storeWithA "b"
           (VNumber 2)); reflexivity.
Defined.

(** [delete('a')] twice on the store that holds [a]. *)
Lemma delete_twice_witness :
  JsMap.wf (storage storeWithA)
  /\ (let w1 := snd (delete (VString "a") storeWithA) in
      delete (VString "a") w1 = (Normal false, w1)
      /\ (forall k', k' <> "a" ->
             JsMap.get k' (storage w1) = JsMap.get k' (storage storeWithA))).
Proof.
  assert (Hwf : JsMap.wf (storage storeWithA)).
  { vm_compute. constructor; [intros [] | constructor]. }
  split; [exact Hwf|].
  apply (delete_twice storeWithA "a" Hwf).
Defined.

(** [add('b', 2)] on the bounded store, which is full. *)
Lemma size_grows_by_at_most_one_witness :
  JsMap.wf (storage fullStore)
  /\ (sizeOf (perform fullClock zeroBytes
                      (CallAdd (VString "b") (VNumber 2)) fullStore)
      <= S (sizeOf fullStore))%nat.
Proof.
  assert (Hwf : JsMap.wf (storage fullStore)).
  { vm_compute. constructor; [intros [] | constructor]. }
  split; [exact Hwf|].
  apply (size_grows_by_at_most_one fullClock zeroBytes fullStore
           (CallAdd (VString "b") (VNumber 2)) Hwf).
Defined.

(** [getUniqueKey()] on a store built with [keyLength = -3]. *)
Lemma getUniqueKey_negative_throws_witness :
  _keyLength (this (new_StorageManager (config None None (Some (-3)) None))) < 0
  /\ getUniqueKey zeroBytes
       (new_StorageManager (config None None (Some (-3)) None))
     = (Throw (RangeError
                 {| doubled :=
                      _keyLength
                        (this (new_StorageManager
                                 (config None None (Some (-3)) None))) |}),
        new_StorageManager (config None None (Some (-3)) None)).
Proof.
  split; [reflexivity|].
  apply (getUniqueKey_negative_throws zeroBytes
           (new_StorageManager (config None None (Some (-3)) None))).
  reflexivity.
Defined.
